(** * pdf_parse.py: text-to-record extraction, embedded and verified

    The development embeds the parsing core of [src/pdf_parse.py]
    ([parse_well_info], [parse_stimulation_data] and the per-document body
    of [main]), then text acquisition ([extract_text_from_pdf],
    [ocr_pdf_to_text]) and the loop of [main], and proves the properties
    its specification states and further properties the code shows.

    Modelling conventions
    - A Python [str] is a Rocq [string]; a character is a code point below
      256 (Latin-1), so CPython's character tables are written out for that
      range.
    - A Python [dict] with string keys is a [gmap string _]; the value
      [None] is [None : option string].
    - Code that can raise returns [res]: [Ok v] or [Raise e]; [try/except]
      is a match on it.
    - The [re] module is a backtracking matcher over a small pattern syntax
      (the fragment the source's patterns use), with the flags IGNORECASE
      and DOTALL. *)

From Stdlib Require Import Ascii String NArith Arith Lia Bool.
From stdpp Require Import base option list gmap strings fin_maps.


(* ===================================================================== *)
(** * Python characters and strings *)
(* ===================================================================== *)

Module Py.

Definition code (c : ascii) : nat := nat_of_ascii c.

Definition between (lo hi : nat) (c : ascii) : bool :=
  (lo <=? code c) && (code c <=? hi).

(** [str.isspace] on one character (also what [\s] and [str.strip] use):
    TAB..CR, FS..US, SPACE, NEL and NBSP. *)
Definition is_space (c : ascii) : bool :=
  between 9 13 c || between 28 32 c || (code c =? 133) || (code c =? 160).

(** The line boundaries of [str.splitlines]: LF, VT, FF, CR, FS, GS, RS
    and NEL (US is white space but no line boundary). *)
Definition is_linebreak (c : ascii) : bool :=
  between 10 13 c || between 28 30 c || (code c =? 133).

(** [\d]: a decimal digit. *)
Definition is_digit (c : ascii) : bool := between 48 57 c.

(** [\w]: alphanumeric or underscore. Below 256 the alphanumerics are the
    ASCII letters and digits, the ordinal indicators, micro sign,
    superscript digits, vulgar fractions and the Latin-1 letters. *)
Definition is_word (c : ascii) : bool :=
  is_digit c || between 65 90 c || between 97 122 c || (code c =? 95)
  || (code c =? 170) || (code c =? 178) || (code c =? 179)
  || (code c =? 181) || (code c =? 185) || (code c =? 186)
  || between 188 190 c || between 192 214 c || between 216 246 c
  || between 248 255 c.

(** Simple lower-case mapping, as IGNORECASE applies it. *)
Definition to_lower (c : ascii) : ascii :=
  if between 65 90 c || between 192 214 c || between 216 222 c
  then ascii_of_nat (code c + 32) else c.

Definition LF : ascii := ascii_of_nat 10.
Definition CR : ascii := ascii_of_nat 13.

(** [s.lstrip()], [s.rstrip()], [s.strip()] *)
Fixpoint lstrip (s : string) : string :=
  match s with
  | String c s' => if is_space c then lstrip s' else s
  | EmptyString => EmptyString
  end.

Fixpoint rstrip (s : string) : string :=
  match s with
  | String c s' =>
      match rstrip s' with
      | EmptyString => if is_space c then EmptyString else String c EmptyString
      | r => String c r
      end
  | EmptyString => EmptyString
  end.

Definition strip (s : string) : string := rstrip (lstrip s).

(** [s.startswith(p)] *)
Fixpoint startswith (p s : string) : bool :=
  match p, s with
  | EmptyString, _ => true
  | String a p', String b s' => Ascii.eqb a b && startswith p' s'
  | String _ _, EmptyString => false
  end.

(** [p in s] *)
Fixpoint contains (p s : string) : bool :=
  startswith p s ||
  match s with
  | String _ s' => contains p s'
  | EmptyString => false
  end.

(** [s.splitlines()]: CR LF counts as one boundary, and a final boundary
    opens no further line. *)
Fixpoint splitlines (s : string) : list string :=
  match s with
  | EmptyString => []
  | String c s' =>
      if is_linebreak c then
        EmptyString ::
          match s' with
          | String c' s'' =>
              if Ascii.eqb c CR && Ascii.eqb c' LF then splitlines s''
              else splitlines s'
          | EmptyString => splitlines s'
          end
      else
        match splitlines s' with
        | [] => [String c EmptyString]
        | l :: ls => String c l :: ls
        end
  end.

(** [sep.join(parts)] *)
Fixpoint join (sep : string) (parts : list string) : string :=
  match parts with
  | [] => EmptyString
  | [p] => p
  | p :: ps => p +:+ sep +:+ join sep ps
  end.

Definition newline : string := String LF EmptyString.

(** What the source can raise. *)
Inductive exn := ValueError | IndexError | KeyError | AttributeError | TypeError.

Inductive res (A : Type) : Type :=
| Ok (a : A)
| Raise (e : exn).
Global Arguments Ok {A} a.
Global Arguments Raise {A} e.

Global Instance res_ret : MRet res := fun A a => Ok a.
Global Instance res_bind : MBind res := fun A B f m =>
  match m with
  | Ok a => f a
  | Raise e => Raise e
  end.

(** [xs[i]] on a list *)
Definition index {A} (xs : list A) (i : nat) : res A :=
  match xs !! i with
  | Some x => Ok x
  | None => Raise IndexError
  end.

(** [d[k]] on a dict *)
Definition getitem {V} (d : gmap string V) (k : string) : res V :=
  match d !! k with
  | Some v => Ok v
  | None => Raise KeyError
  end.

(** Truth value of an optional string: [None] and [""] are false. *)
Definition truthy (v : option string) : bool :=
  match v with
  | None => false
  | Some EmptyString => false
  | Some (String _ _) => true
  end.

End Py.

Import Py.

(* ===================================================================== *)
(** * The [re] module: a backtracking matcher *)
(* ===================================================================== *)

Module Re.

Record flags := { ignorecase : bool; dotall : bool }.

Definition NOFLAG : flags := {| ignorecase := false; dotall := false |}.
Definition IGNORECASE : flags := {| ignorecase := true; dotall := false |}.
Definition DOTALL_IGNORECASE : flags := {| ignorecase := true; dotall := true |}.

(** What matches exactly one character. *)
Inductive atom :=
| Lit (c : ascii)             (* a literal character *)
| Dot                         (* [.] *)
| Cls (p : ascii -> bool).    (* [\d], [\s], [\w] or a bracket set *)

Inductive regex :=
| Eps
| One (a : atom)
| Star (greedy : bool) (a : atom)   (* [a*] and [a*?] *)
| Cat (r1 r2 : regex)
| Alt (r1 r2 : regex)
| Grp (n : nat) (r : regex).        (* capturing group number [n] *)

(** [a+] and [a+?] are one [a] and then a star. *)
Definition Plus (greedy : bool) (a : atom) : regex :=
  Cat (One a) (Star greedy a).

(** A literal word, character by character. *)
Fixpoint Word (w : string) : regex :=
  match w with
  | EmptyString => Eps
  | String c EmptyString => One (Lit c)
  | String c w' => Cat (One (Lit c)) (Word w')
  end.

(** Does atom [a] accept character [c]? IGNORECASE compares literals by
    their lower case; the classes of the source's patterns hold no cased
    character, so the flag leaves them alone. DOTALL lets the dot match a
    newline. *)
Definition accepts (f : flags) (a : atom) (c : ascii) : bool :=
  match a with
  | Lit l =>
      if ignorecase f then Ascii.eqb (to_lower c) (to_lower l)
      else Ascii.eqb c l
  | Dot => dotall f || negb (Ascii.eqb c LF)
  | Cls p => p c
  end.

Definition groups := list (nat * string).

(** The first [n] characters of [s]. *)
Fixpoint take_str (n : nat) (s : string) : string :=
  match n, s with
  | S n', String c s' => String c (take_str n' s')
  | _, _ => EmptyString
  end.

(** What was consumed between position [s] and the later position [s']. *)
Definition consumed (s s' : string) : string :=
  take_str (String.length s - String.length s') s.

Section Matcher.
Context {R : Type}.
Variable f : flags.

(** A continuation receives the rest of the subject and the groups
    closed so far; [None] asks the matcher to backtrack. *)
Definition cont := string -> groups -> option R.

(** Greedy star: the longest run first, then shorter ones. *)
Fixpoint star_greedy (a : atom) (s : string) (g : groups) (k : cont) : option R :=
  match s with
  | String c s' =>
      if accepts f a c then
        match star_greedy a s' g k with
        | Some r => Some r
        | None => k s g
        end
      else k s g
  | EmptyString => k s g
  end.

(** Lazy star: the empty run first, then longer ones. *)
Fixpoint star_lazy (a : atom) (s : string) (g : groups) (k : cont) : option R :=
  match k s g with
  | Some r => Some r
  | None =>
      match s with
      | String c s' => if accepts f a c then star_lazy a s' g k else None
      | EmptyString => None
      end
  end.

Fixpoint rmatch (r : regex) (s : string) (g : groups) (k : cont) : option R :=
  match r with
  | Eps => k s g
  | One a =>
      match s with
      | String c s' => if accepts f a c then k s' g else None
      | EmptyString => None
      end
  | Star greedy a =>
      if greedy then star_greedy a s g k else star_lazy a s g k
  | Cat r1 r2 => rmatch r1 s g (fun s' g' => rmatch r2 s' g' k)
  | Alt r1 r2 =>
      match rmatch r1 s g k with
      | Some x => Some x
      | None => rmatch r2 s g k
      end
  | Grp n r1 => rmatch r1 s g (fun s' g' => k s' ((n, consumed s s') :: g'))
  end.
End Matcher.

(** Every character of [s] satisfies [p]. *)
Fixpoint all_chars (p : ascii -> bool) (s : string) : bool :=
  match s with
  | EmptyString => true
  | String c s' => p c && all_chars p s'
  end.

(** What a pattern denotes, without the order of the search: [Den f r s g g']
    says that [r] can consume exactly [s], taking the groups from [g] to
    [g']. The matcher above is proved sound and complete for it below. *)
Inductive Den (f : flags) : regex -> string -> groups -> groups -> Prop :=
| DenEps g : Den f Eps EmptyString g g
| DenOne a c g : accepts f a c = true -> Den f (One a) (String c EmptyString) g g
| DenStar greedy a s g : all_chars (accepts f a) s = true -> Den f (Star greedy a) s g g
| DenCat r1 r2 s1 s2 g g' g'' :
    Den f r1 s1 g g' -> Den f r2 s2 g' g'' -> Den f (Cat r1 r2) (s1 +:+ s2) g g''
| DenAltL r1 r2 s g g' : Den f r1 s g g' -> Den f (Alt r1 r2) s g g'
| DenAltR r1 r2 s g g' : Den f r2 s g g' -> Den f (Alt r1 r2) s g g'
| DenGrp n r s g g' : Den f r s g g' -> Den f (Grp n r) s g ((n, s) :: g').

(** A match object: the groups and what follows the match. *)
Record Match := { m_groups : groups; m_rest : string }.

(** [re.match(pattern, s, flags)]: anchored at the start only. *)
Definition re_match (f : flags) (r : regex) (s : string) : option Match :=
  rmatch f r s [] (fun s' g => Some {| m_groups := g; m_rest := s' |}).

(** [re.search(pattern, s, flags)]: the leftmost start that matches. *)
Fixpoint re_search (f : flags) (r : regex) (s : string) : option Match :=
  match re_match f r s with
  | Some m => Some m
  | None =>
      match s with
      | String _ s' => re_search f r s'
      | EmptyString => None
      end
  end.

(** [m.group(n)]: [None] when group [n] took no part in the match. *)
Fixpoint lookup_group (g : groups) (n : nat) : option string :=
  match g with
  | [] => None
  | (i, v) :: g' => if Nat.eqb i n then Some v else lookup_group g' n
  end.

Definition group (m : Match) (n : nat) : option string :=
  lookup_group (m_groups m) n.

(** [m.group(n).strip()]; [None] has no [strip]. *)
Definition group_strip (m : Match) (n : nat) : res string :=
  match group m n with
  | Some v => Ok (strip v)
  | None => Raise AttributeError
  end.

End Re.

Import Re.

(* ===================================================================== *)
(** * [datetime.strptime] and [strftime] for the formats the source uses *)
(* ===================================================================== *)

Module Datetime.

Local Open Scope N_scope.

Record datetime := { year : N; month : N; day : N }.

(** A bracket range such as [[0-2]]. *)
Definition rng (lo hi : ascii) : regex :=
  One (Cls (between (code lo) (code hi))).

(** The pattern [_strptime] builds for the format ["%m/%d/%Y"]:
    [(?P<m>1[0-2]|0[1-9]|[1-9])/(?P<d>3[0-1]|[1-2]\d|0[1-9]|[1-9]| [1-9])/(?P<Y>\d\d\d\d)];
    the named groups m, d and Y are numbered 1, 2 and 3 here. *)
Definition mdY_re : regex :=
  Cat (Grp 1 (Alt (Cat (One (Lit "1")) (rng "0" "2"))
             (Alt (Cat (One (Lit "0")) (rng "1" "9"))
                  (rng "1" "9"))))
 (Cat (One (Lit "/"))
 (Cat (Grp 2 (Alt (Cat (One (Lit "3")) (rng "0" "1"))
             (Alt (Cat (rng "1" "2") (One (Cls is_digit)))
             (Alt (Cat (One (Lit "0")) (rng "1" "9"))
             (Alt (rng "1" "9")
                  (Cat (One (Lit " ")) (rng "1" "9")))))))
 (Cat (One (Lit "/"))
      (Grp 3 (Cat (One (Cls is_digit)) (Cat (One (Cls is_digit))
             (Cat (One (Cls is_digit)) (One (Cls is_digit))))))))).

(** [int(s)] on what the pattern above captures: decimal digits, white
    space around them ignored. *)
Fixpoint digits_value (acc : N) (s : string) : res N :=
  match s with
  | EmptyString => Ok acc
  | String c s' =>
      if is_digit c then digits_value (10 * acc + (N_of_ascii c - 48)) s'
      else Raise ValueError
  end.

Definition int (s : string) : res N :=
  match strip s with
  | EmptyString => Raise ValueError
  | t => digits_value 0 t
  end.

Definition is_leap (y : N) : bool :=
  (y mod 4 =? 0) && (negb (y mod 100 =? 0) || (y mod 400 =? 0)).

Definition days_in_month (y m : N) : N :=
  match m with
  | 2 => if is_leap y then 29 else 28
  | 4 | 6 | 9 | 11 => 30
  | _ => 31
  end.

(** The range checks of the [date] constructor, which [strptime] runs on
    the three numbers. *)
Definition make (y m d : N) : res datetime :=
  if (1 <=? y) && (y <=? 9999) && (1 <=? m) && (m <=? 12)
     && (1 <=? d) && (d <=? days_in_month y m)
  then Ok {| year := y; month := m; day := d |}
  else Raise ValueError.

(** [int(found_dict[name])] for one of the three groups. *)
Definition group_int (found : Match) (n : nat) : res N :=
  match group found n with
  | Some v => int v
  | None => Raise ValueError
  end.

(** [datetime.strptime(s, "%m/%d/%Y")] *)
Definition strptime_mdY (s : string) : res datetime :=
  match re_match IGNORECASE mdY_re s with
  | None => Raise ValueError
  | Some found =>
      match m_rest found with
      | EmptyString =>
          m ← group_int found 1;
          d ← group_int found 2;
          y ← group_int found 3;
          make y m d
      | String _ _ => Raise ValueError
      end
  end.

Definition digit_char (n : N) : ascii := ascii_of_N (48 + n mod 10).

(** [n] in decimal on [w] digits, zeros on the left; [n] is below
    [10 ^ w] for a field of a valid date. *)
Fixpoint zero_padded (w : nat) (n : N) : string :=
  match w with
  | O => EmptyString
  | S w' => zero_padded w' (n / 10) +:+ String (digit_char n) EmptyString
  end.

(** [d.strftime("%Y-%m-%d")]; the year on four digits, as the C standard
    and current CPython write it also for years below 1000. *)
Definition strftime_Ymd (d : datetime) : string :=
  zero_padded 4%nat (year d) +:+ "-" +:+ zero_padded 2%nat (month d) +:+ "-"
  +:+ zero_padded 2%nat (day d).

End Datetime.

(* ===================================================================== *)
(** * The parsing core of pdf_parse.py *)
(* ===================================================================== *)

(** A record is a dict from field name to an optional text. *)
Abbreviation record := (gmap string (option string)).

(** The pieces the patterns share: [\d], [\d+], [\s+], [\s*]. *)
Definition digit : regex := One (Cls is_digit).
Definition digits : regex := Plus true (Cls is_digit).
Definition spaces : regex := Plus true (Cls is_space).

(** A sequence of patterns, one after the other. *)
Fixpoint cat_all (rs : list regex) : regex :=
  match rs with
  | [] => Eps
  | [r] => r
  | r :: rs' => Cat r (cat_all rs')
  end.

Definition spaces0 : regex := Star true (Cls is_space).

(** [[^\n]+], [[0-9\-]] and [[\d.]]. *)
Definition not_newline (c : ascii) : bool := negb (Ascii.eqb c LF).
Definition to_eol : regex := Plus true (Cls not_newline).
Definition digit_or_hyphen (c : ascii) : bool :=
  between (code "0") (code "9") c || Ascii.eqb c "-".
Definition digit_or_dot (c : ascii) : bool := is_digit c || Ascii.eqb c ".".

(** ** parse_well_info *)

(** [(?:Well Information|WELL DATA SUMMARY)] and then group 1, a greedy
    dot-star. *)
Definition section_pattern : regex :=
  Cat (Alt (Word "Well Information") (Word "WELL DATA SUMMARY"))
      (Grp 1 (Star true Dot)).

(** [Operator:\s*(.+?)\s+API] *)
Definition operator_pattern : regex :=
  cat_all [Word "Operator:"; spaces0; Grp 1 (Plus false Dot); spaces; Word "API"].
(** [API\s*#:\s*([0-9\-]+)] *)
Definition api_pattern : regex :=
  cat_all [Word "API"; spaces0; Word "#:"; spaces0;
           Grp 1 (Plus true (Cls digit_or_hyphen))].
(** [Well Name:\s*([^\n]+)] *)
Definition well_name_pattern : regex :=
  cat_all [Word "Well Name:"; spaces0; Grp 1 to_eol].
(** [Enseco\s*Job\s*#:\s*([^\n]+)] *)
Definition enseco_job_pattern : regex :=
  cat_all [Word "Enseco"; spaces0; Word "Job"; spaces0; Word "#:"; spaces0;
           Grp 1 to_eol].
(** [Well\s*Type:\s*([^\n]+)] *)
Definition job_type_pattern : regex :=
  cat_all [Word "Well"; spaces0; Word "Type:"; spaces0; Grp 1 to_eol].
(** [County,\s*State:\s*([^\n]+)] *)
Definition county_state_pattern : regex :=
  cat_all [Word "County,"; spaces0; Word "State:"; spaces0; Grp 1 to_eol].
(** [Surface Location:\s*([^\n]+)] *)
Definition shl_pattern : regex :=
  cat_all [Word "Surface Location:"; spaces0; Grp 1 to_eol].
(** [Latitude:\s*([^\n]+)], [Longitude:\s*([^\n]+)], [Datum:\s*([^\n]+)] *)
Definition latitude_pattern : regex :=
  cat_all [Word "Latitude:"; spaces0; Grp 1 to_eol].
Definition longitude_pattern : regex :=
  cat_all [Word "Longitude:"; spaces0; Grp 1 to_eol].
Definition datum_pattern : regex :=
  cat_all [Word "Datum:"; spaces0; Grp 1 to_eol].

(** The section after the header, or the whole text when there is none. *)
Definition section_text (text : string) : res string :=
  match re_search DOTALL_IGNORECASE section_pattern text with
  | Some section_match =>
      match group section_match 1 with
      | Some v => Ok v
      | None => Raise TypeError
      end
  | None => Ok text
  end.

Definition well_keys : list string :=
  ["operator"; "api_number"; "well_name"; "enseco_job_number"; "job_type";
   "county_state"; "well_shl"; "latitude"; "longitude"; "datum"].

(** A dict with every key of [keys] bound to [None]. *)
Definition all_unset (keys : list string) : record :=
  list_to_map ((fun k => (k, None)) <$> keys).

(** The helper closes over [section_text] and [well_data]; both are
    arguments here and the updated dict is returned. *)
Definition match_and_set (section : string) (pattern : regex) (key : string)
    (well_data : record) : res record :=
  match re_search IGNORECASE pattern section with
  | Some m =>
      v ← group_strip m 1;
      Ok (<[key := Some v]> well_data)
  | None => Ok well_data
  end.

Definition parse_well_info (text : string) : res record :=
  section ← section_text text;
  let well_data := all_unset well_keys in
  well_data ← match_and_set section operator_pattern "operator" well_data;
  well_data ← match_and_set section api_pattern "api_number" well_data;
  well_data ← match_and_set section well_name_pattern "well_name" well_data;
  well_data ← match_and_set section enseco_job_pattern "enseco_job_number" well_data;
  well_data ← match_and_set section job_type_pattern "job_type" well_data;
  well_data ← match_and_set section county_state_pattern "county_state" well_data;
  well_data ← match_and_set section shl_pattern "well_shl" well_data;
  well_data ← match_and_set section latitude_pattern "latitude" well_data;
  well_data ← match_and_set section longitude_pattern "longitude" well_data;
  well_data ← match_and_set section datum_pattern "datum" well_data;
  Ok well_data.

(** ** parse_stimulation_data *)

(** [(\d{2}/\d{2}/\d{4})\s+(.*?)\s+(\d+)\s+(\d+)\s+(\d+)\s+I\s+(\d+)\s+(\w+)] *)
Definition date_re : regex :=
  cat_all [ Grp 1 (cat_all [digit; digit; One (Lit "/"); digit; digit;
                            One (Lit "/"); digit; digit; digit; digit]);
            spaces; Grp 2 (Star false Dot);
            spaces; Grp 3 digits;
            spaces; Grp 4 digits;
            spaces; Grp 5 digits;
            spaces; One (Lit "I");
            spaces; Grp 6 digits;
            spaces; Grp 7 (Plus true (Cls is_word)) ].

(** [(.+?)\s+(\d+)\s+(\d+)\s+([\d.]+)] *)
Definition treatment_re : regex :=
  cat_all [ Grp 1 (Plus false Dot);
            spaces; Grp 2 digits;
            spaces; Grp 3 digits;
            spaces; Grp 4 (Plus true (Cls digit_or_dot)) ].

Definition stim_keys : list string :=
  ["date_stimulated"; "stimulated_formation"; "type_treatment"; "top_depth";
   "bottom_depth"; "stimulation_stages"; "volume"; "volume_units";
   "acid_percent"; "lbs_proppant"; "max_treatment_pressure";
   "max_treatment_rate"; "proppant_details"].

(** The [try] block around the date: any exception leaves the date unset. *)
Definition normalize_date (m : Match) : option string :=
  match (raw_date ← group_strip m 1;
         date_obj ← Datetime.strptime_mdY raw_date;
         Ok (Datetime.strftime_Ymd date_obj)) with
  | Ok iso => Some iso
  | Raise _ => None
  end.

(** The body of [if "Date Stimulated" in line_stripped]. *)
Definition date_stimulated_block (lines : list string) (i : nat)
    (data : record) : res record :=
  if i + 1 <? length lines then
    next ← index lines (i + 1);
    let next_line := strip next in
    match re_match NOFLAG date_re next_line with
    | Some m =>
        let data := <["date_stimulated" := normalize_date m]> data in
        v ← group_strip m 2; let data := <["stimulated_formation" := Some v]> data in
        v ← group_strip m 3; let data := <["top_depth" := Some v]> data in
        v ← group_strip m 4; let data := <["bottom_depth" := Some v]> data in
        v ← group_strip m 5; let data := <["stimulation_stages" := Some v]> data in
        v ← group_strip m 6; let data := <["volume" := Some v]> data in
        v ← group_strip m 7; let data := <["volume_units" := Some v]> data in
        Ok data
    | None => Ok data
    end
  else Ok data.

(** The body of [if "Type Treatment" in line_stripped]. *)
Definition type_treatment_block (lines : list string) (i : nat)
    (data : record) : res record :=
  if i + 1 <? length lines then
    next ← index lines (i + 1);
    let next_line := strip next in
    match re_match NOFLAG treatment_re next_line with
    | Some m =>
        v ← group_strip m 1; let data := <["type_treatment" := Some v]> data in
        v ← group_strip m 2; let data := <["lbs_proppant" := Some v]> data in
        v ← group_strip m 3; let data := <["max_treatment_pressure" := Some v]> data in
        v ← group_strip m 4; let data := <["max_treatment_rate" := Some v]> data in
        Ok data
    | None => Ok data
    end
  else Ok data.

(** Where the inner loop of the Details block stops. *)
Definition details_stop (l : string) : bool :=
  String.eqb l "" || startswith "Date Stimulated" l
  || startswith "Type Treatment" l.

(** [for j in range(i+1, len(lines))], over the list of the indices. *)
Fixpoint details_loop (lines : list string) (js : list nat)
    (details_lines : list string) : res (list string) :=
  match js with
  | [] => Ok details_lines
  | j :: js' =>
      line ← index lines j;
      let l := strip line in
      if details_stop l then Ok details_lines
      else details_loop lines js' (details_lines ++ [l])
  end.

(** The body of [if "Details" in line_stripped], up to its [break]. *)
Definition details_block (lines : list string) (i : nat)
    (data : record) : res record :=
  details_lines ← details_loop lines (seq (i + 1) (length lines - (i + 1))) [];
  match details_lines with
  | [] => Ok data
  | _ :: _ => Ok (<["proppant_details" := Some (join newline details_lines)]> data)
  end.

(** [enumerate(lines)] *)
Definition enumerate (lines : list string) : list (nat * string) :=
  zip (seq 0 (length lines)) lines.

(** The [for i, line in enumerate(lines)] loop; the Details block ends it. *)
Fixpoint scan (lines : list string) (todo : list (nat * string))
    (data : record) : res record :=
  match todo with
  | [] => Ok data
  | (i, line) :: todo' =>
      let line_stripped := strip line in
      data ← (if contains "Date Stimulated" line_stripped
              then date_stimulated_block lines i data else Ok data);
      data ← (if contains "Type Treatment" line_stripped
              then type_treatment_block lines i data else Ok data);
      if contains "Details" line_stripped
      then details_block lines i data
      else scan lines todo' data
  end.

Definition parse_stimulation_data (text : string) : res record :=
  let lines := splitlines text in
  scan lines (enumerate lines) (all_unset stim_keys).

(** ** main: what one document sends to the persistence functions *)

(** A call of [insert_well_info] or [insert_stimulation_data], with the
    tuple of values it binds to its statement. *)
Inductive call :=
| insert_well_info (values : list (option string))
| insert_stimulation_data (well_info_id : nat) (values : list (option string)).

(** The [values] tuple: one [d[k]] per column. *)
Fixpoint values_of (keys : list string) (d : record) : res (list (option string)) :=
  match keys with
  | [] => Ok []
  | k :: keys' =>
      v ← getitem d k;
      vs ← values_of keys' d;
      Ok (v :: vs)
  end.

Definition stim_columns : list string :=
  ["date_stimulated"; "stimulated_formation"; "top_depth"; "bottom_depth";
   "stimulation_stages"; "volume"; "volume_units"; "acid_percent";
   "lbs_proppant"; "max_treatment_pressure"; "max_treatment_rate";
   "proppant_details"].

(** Steps 4 to 7 of the loop body of [main] for one document's text;
    [well_info_id] is the row id [insert_well_info] returns. The result is
    the sequence of persistence calls, in order. *)
Definition process_document (text_content : string) (well_info_id : nat)
    : res (list call) :=
  well_info ← parse_well_info text_content;
  wv ← values_of well_keys well_info;
  stim_data ← parse_stimulation_data text_content;
  date ← getitem stim_data "date_stimulated";
  found ← (if truthy date then Ok true
           else formation ← getitem stim_data "stimulated_formation";
                Ok (truthy formation));
  if (found : bool) then
    sv ← values_of stim_columns stim_data;
    Ok [insert_well_info wv; insert_stimulation_data well_info_id sv]
  else Ok [insert_well_info wv].

(* ===================================================================== *)
(** * Definitions used by the statements and proofs *)
(* ===================================================================== *)

(** Group [n] is closed on every path through [r]. *)
Fixpoint binds (r : regex) (n : nat) : bool :=
  match r with
  | Grp m r' => Nat.eqb m n || binds r' n
  | Cat r1 r2 => binds r1 n || binds r2 n
  | Alt r1 r2 => binds r1 n && binds r2 n
  | _ => false
  end.

(** What a matching data line writes, once the groups are known to be
    there: the date block's seven assignments and the treatment block's
    four, in the order of the source. *)
Definition date_fields (m : Match) (data : record) : record :=
  <["volume_units" := strip <$> group m 7]>
  (<["volume" := strip <$> group m 6]>
  (<["stimulation_stages" := strip <$> group m 5]>
  (<["bottom_depth" := strip <$> group m 4]>
  (<["top_depth" := strip <$> group m 3]>
  (<["stimulated_formation" := strip <$> group m 2]>
  (<["date_stimulated" := normalize_date m]> data)))))).

Definition treatment_fields (m : Match) (data : record) : record :=
  <["max_treatment_rate" := strip <$> group m 4]>
  (<["max_treatment_pressure" := strip <$> group m 3]>
  (<["lbs_proppant" := strip <$> group m 2]>
  (<["type_treatment" := strip <$> group m 1]> data))).

(** The line after line [i], trimmed, when there is one. *)
Definition next_line (lines : list string) (i : nat) : option string :=
  strip <$> lines !! (i + 1).

(** The trimmed lines of [post] before the first one that stops the
    Details block. *)
Fixpoint collect_details (post : list string) : list string :=
  match post with
  | [] => []
  | x :: post' =>
      if details_stop (strip x) then [] else strip x :: collect_details post'
  end.

(** The three blocks and the loop without the exception plumbing; the
    lemmas [*_ok] below show that the source's code computes exactly
    these and never raises. *)
Definition date_block_result (lines : list string) (i : nat) (data : record) : record :=
  match next_line lines i with
  | Some l =>
      match re_match NOFLAG date_re l with
      | Some m => date_fields m data
      | None => data
      end
  | None => data
  end.

Definition treatment_block_result (lines : list string) (i : nat) (data : record) : record :=
  match next_line lines i with
  | Some l =>
      match re_match NOFLAG treatment_re l with
      | Some m => treatment_fields m data
      | None => data
      end
  | None => data
  end.

Definition details_block_result (lines : list string) (i : nat) (data : record) : record :=
  match collect_details (drop (i + 1) lines) with
  | [] => data
  | ds => <["proppant_details" := Some (join newline ds)]> data
  end.

(** One iteration's marker blocks, before the Details test. *)
Definition markers_result (lines : list string) (i : nat) (line : string)
    (data : record) : record :=
  let data := if contains "Date Stimulated" (strip line)
              then date_block_result lines i data else data in
  if contains "Type Treatment" (strip line)
  then treatment_block_result lines i data else data.

Fixpoint scan_result (lines : list string) (i : nat) (todo : list string)
    (data : record) : record :=
  match todo with
  | [] => data
  | line :: todo' =>
      let data := markers_result lines i line data in
      if contains "Details" (strip line)
      then details_block_result lines i data
      else scan_result lines (S i) todo' data
  end.

(** [parse_well_info] without the exception plumbing: the ten rules in the
    order of the source, each writing its key when its pattern is found. *)
Definition well_rules : list (regex * string) :=
  [(operator_pattern, "operator"); (api_pattern, "api_number");
   (well_name_pattern, "well_name"); (enseco_job_pattern, "enseco_job_number");
   (job_type_pattern, "job_type"); (county_state_pattern, "county_state");
   (shl_pattern, "well_shl"); (latitude_pattern, "latitude");
   (longitude_pattern, "longitude"); (datum_pattern, "datum")].

Definition rule_result (section : string) (well_data : record)
    (rule : regex * string) : record :=
  match re_search IGNORECASE rule.1 section with
  | Some m => <[rule.2 := strip <$> group m 1]> well_data
  | None => well_data
  end.

Definition section_result (text : string) : string :=
  match re_search DOTALL_IGNORECASE section_pattern text with
  | Some m => default text (group m 1)
  | None => text
  end.

Definition well_result (section : string) : record :=
  foldl (rule_result section) (all_unset well_keys) well_rules.

(** A record is structurally complete when its keys are exactly the keys
    of its kind. *)
Definition stim_shape (d : record) : Prop := dom d = list_to_set stim_keys.
Definition well_shape (d : record) : Prop := dom d = list_to_set well_keys.

(** The keys each block assigns. *)
Definition date_keys : list string :=
  ["date_stimulated"; "stimulated_formation"; "top_depth"; "bottom_depth";
   "stimulation_stages"; "volume"; "volume_units"].
Definition treatment_keys : list string :=
  ["type_treatment"; "lbs_proppant"; "max_treatment_pressure"; "max_treatment_rate"].

(** Every match of [r] holds the literal character [c]. *)
Fixpoint requires (r : regex) (c : ascii) : bool :=
  match r with
  | One (Lit l) => Ascii.eqb l c
  | Cat r1 r2 => requires r1 c || requires r2 c
  | Alt r1 r2 => requires r1 c && requires r2 c
  | Grp _ r' => requires r' c
  | _ => false
  end.

Fixpoint has_char (c : ascii) (s : string) : bool :=
  match s with
  | EmptyString => false
  | String x s' => Ascii.eqb x c || has_char c s'
  end.



(** The marker blocks of the lines [todo], which start at index [i], when
    none of them ends the scan. *)
Fixpoint markers_fold (lines : list string) (i : nat) (todo : list string)
    (data : record) : record :=
  match todo with
  | [] => data
  | line :: todo' => markers_fold lines (S i) todo' (markers_result lines i line data)
  end.

(** In the spec's words: a line that ends the Details block is empty once
    trimmed, or begins with one of the two headers. *)
Definition ends_details (x : string) : Prop :=
  strip x = "" \/ (exists r, strip x = "Date Stimulated" +:+ r)
  \/ (exists r, strip x = "Type Treatment" +:+ r).

(** Sample lines after a Details marker: two detail lines, a blank line
    and a second Details block. *)
Definition sample_details : list string :=
  [" 40/70 White Sand "; "100 Mesh"; ""; "Details"; "Ceramic"].

(** Two episodes with no Details line between them. *)
Definition two_episodes : string :=
  join newline
    ["Date Stimulated Stimulated Formation Top Bottom Stages Volume Units";
     "06/09/2015 Three Forks 11185 20754 50 I 126978 Barrels";
     "Type Treatment Lbs Proppant Pressure Rate";
     "Sand Frac 4230380 9122 39.0";
     "Date Stimulated Stimulated Formation Top Bottom Stages Volume Units";
     "07/10/2016 Bakken 9000 19000 40 I 99999 Gallons";
     "Type Treatment Lbs Proppant Pressure Rate";
     "Acid Frac 1000 8000 25.5"].

(** A data line with an impossible date and no formation name. *)
Definition no_date_no_name : string :=
  join newline ["Date Stimulated"; "13/40/2015  11185 20754 50 I 126978 Barrels"].

(** A field that is set, and one that is set to a text that is not empty. *)
Definition is_set (d : record) (k : string) : Prop :=
  exists v, d !! k = Some (Some v).
Definition is_set_nonempty (d : record) (k : string) : Prop :=
  exists v, d !! k = Some (Some v) /\ v <> "".

(** The date field never holds the empty text. *)
Definition date_sane (d : record) : Prop := d !! "date_stimulated" <> Some (Some "").

(** Matching a literal word at the start of [s]: what is left of [s], if
    every character is accepted. *)
Fixpoint lit_prefix (f : flags) (w s : string) : option string :=
  match w with
  | EmptyString => Some s
  | String c w' =>
      match s with
      | String x s' => if accepts f (Lit c) x then lit_prefix f w' s' else None
      | EmptyString => None
      end
  end.

(** Lower case of a text; two texts are equal up to case when their lower
    cases are equal. *)
Fixpoint lower (s : string) : string :=
  match s with
  | EmptyString => EmptyString
  | String c s' => String (to_lower c) (lower s')
  end.

Definition ci_eq (a b : string) : Prop := lower a = lower b.

(** In the spec's words: [h] is one of the two section headers, up to case. *)
Definition is_header (h : string) : Prop :=
  ci_eq h "Well Information" \/ ci_eq h "WELL DATA SUMMARY".

(** In the spec's words: [out] is what section isolation must return for
    [text]: what follows the first header, or the text itself when it holds
    no header. *)
Inductive isolated (text : string) : string -> Prop :=
| after_first_header pre h post :
    text = pre +:+ h +:+ post -> is_header h ->
    (forall pre' h' post',
        text = pre' +:+ h' +:+ post' -> is_header h' ->
        String.length pre <= String.length pre') ->
    isolated text post
| without_header :
    (forall pre h post, text = pre +:+ h +:+ post -> ~ is_header h) ->
    isolated text text.

(** Texts made of white space only, and texts on one line. *)
Definition blank (s : string) : Prop := all_chars is_space s = true.
Definition one_line (s : string) : Prop := all_chars not_newline s = true.

(** No white space inside [body] is followed at once by "API", up to case:
    the operator rule would stop there. *)
Definition no_api_inside (body : string) : Prop :=
  forall b1 x a b2,
    body = b1 +:+ String x a +:+ b2 -> is_space x = true -> ~ ci_eq a "API".

(** The same as a test: some white space of [s] is followed at once by
    "api" in lower case. *)
Fixpoint api_after_space (s : string) : bool :=
  match s with
  | EmptyString => false
  | String x s' => (is_space x && startswith "api" (lower s')) || api_after_space s'
  end.

(** An operator and an API number on one physical line, and an operator
    name that runs over two lines. *)
Definition operator_line : string :=
  "Operator: Oasis Petroleum  API #: 33-053-06057" +:+ newline +:+ "Well Name: Chalmers 5300".
Definition operator_two_lines : string :=
  "Operator: Oasis" +:+ newline +:+ "Petroleum API #: 33-053-06057".


















(** Two records agree on the keys of a list. *)
Definition fields_agree (keys : list string) (d d' : record) : Prop :=
  forall k, k ∈ keys -> d !! k = d' !! k.



(** The literal line pairs of the specification. *)
Definition treatment_pair : string :=
  join newline ["Type Treatment"; "Sand Frac 4230380 9122 39.0"].


(** No line of the list holds the Details marker. *)
Definition no_details (pre : list string) : Prop :=
  Forall (fun x => contains "Details" (strip x) = false) pre.


(** ** Definitions for the further properties *)

(** A text without white space at either end. *)
Definition trimmed (v : string) : Prop := strip v = v.

(** The eight rules that read to the end of the line: the words of the
    label, between which the pattern allows white space, the pattern and
    the key. *)
Definition line_rules : list (list string * regex * string) :=
  [(["Well Name:"], well_name_pattern, "well_name");
   (["Enseco"; "Job"; "#:"], enseco_job_pattern, "enseco_job_number");
   (["Well"; "Type:"], job_type_pattern, "job_type");
   (["County,"; "State:"], county_state_pattern, "county_state");
   (["Surface Location:"], shl_pattern, "well_shl");
   (["Latitude:"], latitude_pattern, "latitude");
   (["Longitude:"], longitude_pattern, "longitude");
   (["Datum:"], datum_pattern, "datum")].

(** The pattern of a label: its words with [\s*] between them. *)
Fixpoint label_pattern (ws : list string) : regex :=
  match ws with
  | [] => Eps
  | [w] => Word w
  | w :: ws' => Cat (Word w) (Cat spaces0 (label_pattern ws'))
  end.

(** [h] reads a label: its words up to case, in order, with white space or
    nothing between them. *)
Inductive reads_label : list string -> string -> Prop :=
| reads_word w h : ci_eq h w -> reads_label [w] h
| reads_more w ws h gap t :
    ci_eq h w -> blank gap -> ws <> [] -> reads_label ws t ->
    reads_label (w :: ws) (h +:+ gap +:+ t).

(** The first character of [w] is no white space, in either case. *)
Definition starts_plain (w : string) : bool :=
  match lower w with
  | String c _ => negb (is_space c)
  | EmptyString => false
  end.

Definition name_on_next_line : string :=
  "WELL NAME:" +:+ newline +:+ "  Chalmers 5300 21-19  " +:+ newline +:+ "Datum: NAD83".

(** A text of line feeds only. *)
Definition line_feeds (s : string) : bool := all_chars (Ascii.eqb LF) s.

(** The places of [s], counted from [i], where the word [w] stands, up to
    case. *)
Fixpoint word_offsets (w s : string) (i : nat) : list nat :=
  (match lit_prefix IGNORECASE w s with Some _ => [i] | None => [] end)
  ++ match s with
     | String _ s' => word_offsets w s' (S i)
     | EmptyString => []
     end.

Definition datum_at_the_end : string := "Latitude: 48.07" +:+ newline +:+ "Datum:  ".



(** No marker line among [post], the lines from index [i] on, is followed
    by a line that the pattern [r] matches. *)
Definition no_later_match (marker : string) (r : regex) (lines post : list string)
    (i : nat) : Prop :=
  forall j line' l',
    post !! j = Some line' -> contains marker (strip line') = true ->
    next_line lines (i + j) = Some l' -> re_match NOFLAG r l' = None.

Definition second_treatment_match : Match :=
  {| m_groups := [(4, "25.5"); (3, "8000"); (2, "1000"); (1, "Acid Frac")];
     m_rest := "" |}.

(** A line: a text without line boundary. *)
Definition no_linebreak (l : string) : Prop :=
  all_chars (fun c => negb (is_linebreak c)) l = true.

(** The line ends of Unix, Windows and the old Mac OS. *)
Definition line_ends : list string :=
  [String LF ""; String CR (String LF ""); String CR ""].

(** Two treatment lines that differ in the treatment type only. *)
Definition sand_frac_text : string :=
  join newline ["Date Stimulated"; "06/09/2015 Bakken 11185 20754 50 I 126978 Barrels";
                "Type Treatment"; "Sand Frac 4230380 9122 39.0"].
Definition acid_frac_text : string :=
  join newline ["Date Stimulated"; "06/09/2015 Bakken 11185 20754 50 I 126978 Barrels";
                "Type Treatment"; "Acid Frac 4230380 9122 39.0"].

(** ** Text acquisition and the loop of main

    The collaborators are seen through what they return: pdfplumber by the
    pages it shows of a file, ocrmypdf by the file it writes, MySQL by the
    row ids it hands out. *)

(** What a call can raise: an exception of Python itself, or one of a
    library, named by its class. All of them derive from [Exception]. *)
Inductive failure := Python (e : exn) | Library (class : string).

Inductive outcome (A : Type) : Type :=
| Returns (a : A)
| Raises (f : failure).
Arguments Returns {A} a.
Arguments Raises {A} f.

(** [page.extract_text()]: a text, [None] for a page without text, or an
    exception. *)
Definition page : Type := outcome (option string).

(** [pdfplumber.open(path)] and [pdf.pages]: an exception, or the pages. *)
Definition pdf : Type := outcome (list page).

Record world := {
  (** [os.listdir(pdf_folder)] *)
  listdir : outcome (list string);
  (** what pdfplumber shows of the file at a path *)
  pdfplumber_open : string -> pdf;
  (** what pdfplumber shows of the file that [ocrmypdf --force-ocr] writes
      for the file at a path; [None] when ocrmypdf exits with an error *)
  ocrmypdf : string -> option pdf;
  (** [create_db_and_tables()] *)
  create_db_and_tables : outcome unit;
  (** [cursor.lastrowid] of the well row inserted after the calls so far *)
  lastrowid : list call -> nat }.

(** The loop of [ocr_pdf_to_text]: [text_content += page.extract_text() + "\n"];
    [None + "\n"] is a TypeError. *)
Fixpoint ocr_pages (pages : list page) (text_content : string) : outcome string :=
  match pages with
  | [] => Returns text_content
  | Returns (Some t) :: pages' => ocr_pages pages' (text_content +:+ (t +:+ newline))
  | Returns None :: _ => Raises (Python TypeError)
  | Raises f :: _ => Raises f
  end.

(** [ocr_pdf_to_text(pdf_path)]; [check=True] turns an error of ocrmypdf
    into CalledProcessError. The removal of the file just read succeeds. *)
Definition ocr_pdf_to_text (w : world) (pdf_path : string) : outcome string :=
  match ocrmypdf w pdf_path with
  | None => Raises (Library "CalledProcessError")
  | Some (Raises f) => Raises f
  | Some (Returns pages) => ocr_pages pages ""
  end.

(** The loop inside the [try] of [extract_text_from_pdf]: pages without
    text are skipped, and an exception ends the loop with the text read so
    far. *)
Fixpoint direct_pages (pages : list page) (text_content : string) : string :=
  match pages with
  | [] => text_content
  | Returns extracted :: pages' =>
      direct_pages pages'
        (match extracted with
         | Some (String c t) => text_content +:+ (String c t +:+ newline)
         | _ => text_content
         end)
  | Raises _ :: _ => text_content
  end.

(** [extract_text_from_pdf(pdf_path)] *)
Definition extract_text_from_pdf (w : world) (pdf_path : string) : outcome string :=
  let text_content :=
    match pdfplumber_open w pdf_path with
    | Returns pages => direct_pages pages ""
    | Raises _ => ""
    end in
  match strip text_content with
  | EmptyString => ocr_pdf_to_text w pdf_path
  | String _ _ => Returns text_content
  end.

(** [s.endswith(p)] *)
Fixpoint endswith (p s : string) : bool :=
  String.eqb p s ||
  match s with
  | String _ s' => endswith p s'
  | EmptyString => false
  end.

(** [os.path.join(a, b)] on POSIX, for a folder name [a] that is not empty
    and does not end in a slash. *)
Definition path_join (a b : string) : string :=
  if startswith "/" b then b else a +:+ "/" +:+ b.

(** [filename.lower().endswith(".pdf")] *)
Definition is_pdf_name (filename : string) : bool := endswith ".pdf" (lower filename).

(** The [for filename in os.listdir(pdf_folder)] loop of [main]; [log] holds
    the persistence calls made so far. An exception ends the loop and
    leaves the calls already made. *)
Fixpoint main_loop (w : world) (filenames : list string) (log : list call)
    : outcome unit * list call :=
  match filenames with
  | [] => (Returns tt, log)
  | filename :: filenames' =>
      if is_pdf_name filename then
        match extract_text_from_pdf w (path_join "pdf_folder" filename) with
        | Raises f => (Raises f, log)
        | Returns text_content =>
            match process_document text_content (lastrowid w log) with
            | Raise e => (Raises (Python e), log)
            | Ok calls => main_loop w filenames' (log ++ calls)
            end
        end
      else main_loop w filenames' log
  end.

(** [main()] *)
Definition main (w : world) : outcome unit * list call :=
  match create_db_and_tables w with
  | Raises f => (Raises f, [])
  | Returns _ =>
      match listdir w with
      | Raises f => (Raises f, [])
      | Returns filenames => main_loop w filenames []
      end
  end.

(** The texts of the pages read before the first page that raises. *)
Fixpoint read_texts (pages : list page) : list string :=
  match pages with
  | Returns (Some t) :: pages' => t :: read_texts pages'
  | Returns None :: pages' => read_texts pages'
  | _ => []
  end.

(** What pdfplumber reads of the file itself, before any exception. *)
Definition direct_texts (w : world) (pdf_path : string) : list string :=
  match pdfplumber_open w pdf_path with
  | Returns pages => read_texts pages
  | Raises _ => []
  end.

(** A text with a character that is no white space. *)
Definition visible (t : string) : bool := negb (all_chars is_space t).

(** The texts that are not empty, each followed by a newline. *)
Fixpoint lines_text (texts : list string) : string :=
  match texts with
  | [] => ""
  | "" :: texts' => lines_text texts'
  | t :: texts' => t +:+ newline +:+ lines_text texts'
  end.

(** Every text followed by a newline, the empty ones too. *)
Fixpoint all_lines_text (texts : list string) : string :=
  match texts with
  | [] => ""
  | t :: texts' => t +:+ newline +:+ all_lines_text texts'
  end.

(** A page that gives a text. *)
Definition text_page (t : string) : page := Returns (Some t).

Definition scanned_then_text : world :=
  {| listdir := Returns ["W28654.pdf"];
     pdfplumber_open := fun _ => Returns [Returns None; text_page "  ";
                                           text_page "Well Name: Chalmers";
                                           Raises (Library "PDFSyntaxError")];
     ocrmypdf := fun _ => None;
     create_db_and_tables := Returns tt;
     lastrowid := fun log => length log |}.

Definition ocr_with_empty_page : world :=
  {| listdir := Returns ["W28654.pdf"];
     pdfplumber_open := fun _ => Returns [Returns None];
     ocrmypdf := fun _ => Some (Returns [text_page "Well Name: Chalmers"; Returns None]);
     create_db_and_tables := Returns tt;
     lastrowid := fun log => length log |}.

(** A log in which every stimulation row comes right after the well row of
    its document and carries the row id that well row was given. *)
Inductive linked (w : world) : list call -> Prop :=
| linked_nil : linked w []
| linked_well log wv : linked w log -> linked w (log ++ [insert_well_info wv])
| linked_both log wv sv :
    linked w log ->
    linked w (log ++ [insert_well_info wv;
                      insert_stimulation_data (lastrowid w log) sv]).

(** The number of well rows in a log. *)
Fixpoint well_rows (log : list call) : nat :=
  match log with
  | [] => 0
  | insert_well_info _ :: log' => S (well_rows log')
  | insert_stimulation_data _ _ :: log' => well_rows log'
  end.

Definition three_entries : world :=
  {| listdir := Returns ["notes.txt"; "W28654.PDF"; "W20197.pdf.bak"];
     pdfplumber_open := fun _ => Returns [text_page "Well Name: Chalmers"];
     ocrmypdf := fun _ => None;
     create_db_and_tables := Returns tt;
     lastrowid := fun log => length log |}.


(** The words of the label of the API rule. *)
Definition api_label : list string := ["API"; "#:"].

(** An operator line, and a record from which a column of the well
    statement is missing. *)
Definition api_line : string := "Operator: Oasis  API#:  33-053-06057 (new)".
Definition well_without_datum : record := delete "datum" (all_unset well_keys).

(* ===================================================================== *)
(** * Strings *)
(* ===================================================================== *)

Section StringFacts.

Lemma app_cons (c : ascii) (s t : string) : String c s +:+ t = String c (s +:+ t).
Proof. reflexivity. Qed.

Lemma app_empty_l (s : string) : "" +:+ s = s.
Proof. reflexivity. Qed.

Lemma app_empty_r (s : string) : s +:+ "" = s.
Proof. induction s as [|c s IH]; [done|]. by rewrite app_cons, IH. Qed.

Lemma app_assoc_str (s t u : string) : (s +:+ t) +:+ u = s +:+ (t +:+ u).
Proof. induction s as [|c s IH]; [done|]. by rewrite !app_cons, IH. Qed.

Lemma length_app_str (s t : string) :
  String.length (s +:+ t) = String.length s + String.length t.
Proof. induction s as [|c s IH]; [done|]. rewrite app_cons. simpl. by rewrite IH. Qed.

Lemma take_str_app (s t : string) : take_str (String.length s) (s +:+ t) = s.
Proof. induction s as [|c s IH]; [by destruct t|]. rewrite app_cons. simpl. by rewrite IH. Qed.

Lemma consumed_app (s t : string) : consumed (s +:+ t) t = s.
Proof.
  unfold consumed. rewrite length_app_str.
  replace (String.length s + String.length t - String.length t)
    with (String.length s) by lia.
  apply take_str_app.
Qed.

Lemma app_is_empty (s t : string) : s +:+ t = "" -> s = "" /\ t = "".
Proof. destruct s; [done|]. rewrite app_cons. discriminate. Qed.

Lemma all_chars_app p (s t : string) :
  all_chars p (s +:+ t) = all_chars p s && all_chars p t.
Proof.
  induction s as [|c s IH]; [done|]. rewrite app_cons. simpl.
  by rewrite IH, andb_assoc.
Qed.

End StringFacts.

(* ===================================================================== *)
(** * The matcher is sound and complete for [Den] *)
(* ===================================================================== *)

Section MatcherFacts.
Context {R : Type}.
Variable f : flags.
Implicit Types (k : string -> groups -> option R) (s : string) (g : groups).

Lemma star_greedy_sound a s g k res :
  star_greedy f a s g k = Some res ->
  exists s1 s2, s = s1 +:+ s2 /\ all_chars (accepts f a) s1 = true
                /\ k s2 g = Some res.
Proof.
  induction s as [|c s IH]; simpl.
  - intros H. by exists "", "".
  - destruct (accepts f a c) eqn:Hc.
    + destruct (star_greedy f a s g k) as [r|] eqn:Hs.
      * intros [= ->]. destruct (IH eq_refl) as (s1 & s2 & -> & H1 & H2).
        exists (String c s1), s2. simpl. by rewrite Hc, H1.
      * intros H. by exists "", (String c s).
    + intros H. by exists "", (String c s).
Qed.

Lemma star_lazy_sound a s g k res :
  star_lazy f a s g k = Some res ->
  exists s1 s2, s = s1 +:+ s2 /\ all_chars (accepts f a) s1 = true
                /\ k s2 g = Some res.
Proof.
  induction s as [|c s IH]; simpl.
  - destruct (k "" g) eqn:Hk; [|done]. intros [= ->]. by exists "", "".
  - destruct (k (String c s) g) eqn:Hk.
    + intros [= ->]. by exists "", (String c s).
    + destruct (accepts f a c) eqn:Hc; [|done].
      intros H. destruct (IH H) as (s1 & s2 & -> & H1 & H2).
      exists (String c s1), s2. simpl. by rewrite Hc, H1.
Qed.



End MatcherFacts.

Lemma rmatch_sound {R} f r :
  forall s g (k : string -> groups -> option R) res,
    rmatch f r s g k = Some res ->
    exists s1 s2 g', s = s1 +:+ s2 /\ Den f r s1 g g' /\ k s2 g' = Some res.
Proof.
  induction r as [|a|greedy a|r1 IH1 r2 IH2|r1 IH1 r2 IH2|n r IH];
    intros s g k res; simpl.
  - intros H. exists "", s, g. split_and!; [done|constructor|done].
  - destruct s as [|c s]; [done|]. destruct (accepts f a c) eqn:Hc; [|done].
    intros H. exists (String c ""), s, g. split_and!; [done|by constructor|done].
  - intros H.
    assert (exists s1 s2, s = s1 +:+ s2 /\ all_chars (accepts f a) s1 = true
                          /\ k s2 g = Some res) as (s1 & s2 & -> & H1 & H2).
    { destruct greedy; eauto using star_greedy_sound, star_lazy_sound. }
    exists s1, s2, g. split_and!; [done|by constructor|done].
  - intros H. apply IH1 in H as (s1 & s2 & g' & -> & D1 & H).
    apply IH2 in H as (s3 & s4 & g'' & -> & D2 & H).
    exists (s1 +:+ s3), s4, g''. rewrite app_assoc_str.
    split_and!; [done|by econstructor|done].
  - destruct (rmatch f r1 s g k) as [x|] eqn:H1.
    + intros [= ->]. apply IH1 in H1 as (s1 & s2 & g' & -> & D & H).
      exists s1, s2, g'. split_and!; [done|by apply DenAltL|done].
    + intros H. apply IH2 in H as (s1 & s2 & g' & -> & D & H).
      exists s1, s2, g'. split_and!; [done|by apply DenAltR|done].
  - intros H. apply IH in H as (s1 & s2 & g' & -> & D & H).
    rewrite consumed_app in H.
    exists s1, s2, ((n, s1) :: g'). split_and!; [done|by constructor|done].
Qed.


Section DenFacts.
Variable f : flags.

Lemma den_eps_inv s g g' : Den f Eps s g g' -> s = "" /\ g' = g.
Proof. by inversion 1. Qed.

Lemma den_one_inv a s g g' :
  Den f (One a) s g g' -> exists c, s = String c "" /\ accepts f a c = true /\ g' = g.
Proof. inversion 1; subst. eauto. Qed.

Lemma den_star_inv greedy a s g g' :
  Den f (Star greedy a) s g g' -> all_chars (accepts f a) s = true /\ g' = g.
Proof. by inversion 1. Qed.

Lemma den_cat_inv r1 r2 s g g'' :
  Den f (Cat r1 r2) s g g'' ->
  exists s1 s2 g', s = s1 +:+ s2 /\ Den f r1 s1 g g' /\ Den f r2 s2 g' g''.
Proof. inversion 1; subst. eauto 6. Qed.

Lemma den_grp_inv n r s g g'' :
  Den f (Grp n r) s g g'' -> exists g', Den f r s g g' /\ g'' = (n, s) :: g'.
Proof. inversion 1; subst. eauto. Qed.

Lemma den_plus_inv greedy a s g g' :
  Den f (Plus greedy a) s g g' ->
  s <> "" /\ all_chars (accepts f a) s = true /\ g' = g.
Proof.
  intros (s1 & s2 & g1 & -> & H1 & H2)%den_cat_inv.
  apply den_one_inv in H1 as (c & -> & Hc & ->).
  apply den_star_inv in H2 as [H2 ->].
  rewrite app_cons, app_empty_l. simpl. by rewrite Hc, H2.
Qed.


(** Groups only accumulate, and a bound group is present afterwards. *)
Lemma den_groups r s g g' n :
  Den f r s g g' ->
  binds r n = true \/ is_Some (lookup_group g n) -> is_Some (lookup_group g' n).
Proof.
  induction 1 as [g|a c g Hc|greedy a s g Hs|r1 r2 s1 s3 g g' g'' _ IH1 _ IH2
                  |r1 r2 s g g' _ IH|r1 r2 s g g' _ IH|m r s g g' _ IH]; simpl.
  - by intros [?|?].
  - by intros [?|?].
  - by intros [?|?].
  - intros [[?|?]%orb_prop|?]; auto.
  - intros [[??]%andb_prop|?]; auto.
  - intros [[??]%andb_prop|?]; auto.
  - destruct (Nat.eqb m n) eqn:E; [done|]. simpl. auto.
Qed.
End DenFacts.

Lemma re_match_sound f r s m :
  re_match f r s = Some m ->
  exists s1, s = s1 +:+ m_rest m /\ Den f r s1 [] (m_groups m).
Proof.
  unfold re_match. intros (s1 & s2 & g' & -> & D & [= <-])%rmatch_sound.
  by exists s1.
Qed.


Lemma re_match_group f r s m n :
  re_match f r s = Some m -> binds r n = true -> is_Some (group m n).
Proof.
  intros (s1 & _ & D)%re_match_sound Hn. unfold group.
  eapply den_groups; eauto.
Qed.

Lemma re_search_found f r s m :
  re_search f r s = Some m ->
  exists pre s', s = pre +:+ s' /\ re_match f r s' = Some m.
Proof.
  induction s as [|c s IH]; simpl.
  - destruct (re_match f r "") eqn:E; [|done]. intros [= <-]. by exists "", "".
  - destruct (re_match f r (String c s)) eqn:E.
    + intros [= <-]. by exists "", (String c s).
    + intros (pre & s' & -> & H)%IH. by exists (String c pre), s'.
Qed.

Lemma re_search_group f r s m n :
  re_search f r s = Some m -> binds r n = true -> is_Some (group m n).
Proof. intros (pre & s' & _ & H)%re_search_found. by eapply re_match_group. Qed.

(* ===================================================================== *)
(** * The blocks of parse_stimulation_data never raise *)
(* ===================================================================== *)

Lemma group_strip_ok f r s m n :
  re_match f r s = Some m -> binds r n = true ->
  group_strip m n = Ok (default "" (strip <$> group m n))
  /\ strip <$> group m n = Some (default "" (strip <$> group m n)).
Proof.
  intros Hm Hn. destruct (re_match_group _ _ _ _ _ Hm Hn) as [v Hv].
  unfold group_strip. by rewrite Hv.
Qed.

Ltac groups_ok Hm :=
  repeat match goal with
  | |- context [group_strip ?m ?n] =>
      let H1 := fresh in let H2 := fresh in
      destruct (group_strip_ok _ _ _ m n Hm eq_refl) as [H1 H2];
      rewrite H1; clear H1; rewrite H2; clear H2; simpl
  end.

Lemma date_stimulated_block_ok lines i data :
  date_stimulated_block lines i data = Ok (date_block_result lines i data).
Proof.
  unfold date_stimulated_block, date_block_result, next_line, index.
  destruct (i + 1 <? length lines) eqn:E.
  - apply Nat.ltb_lt in E. destruct (lookup_lt_is_Some_2 lines (i + 1) E) as [x ->].
    simpl. destruct (re_match NOFLAG date_re (strip x)) as [m|] eqn:Hm; [|done].
    unfold date_fields. groups_ok Hm. done.
  - apply Nat.ltb_ge in E. by rewrite (lookup_ge_None_2 lines (i + 1) E).
Qed.

Lemma type_treatment_block_ok lines i data :
  type_treatment_block lines i data = Ok (treatment_block_result lines i data).
Proof.
  unfold type_treatment_block, treatment_block_result, next_line, index.
  destruct (i + 1 <? length lines) eqn:E.
  - apply Nat.ltb_lt in E. destruct (lookup_lt_is_Some_2 lines (i + 1) E) as [x ->].
    simpl. destruct (re_match NOFLAG treatment_re (strip x)) as [m|] eqn:Hm; [|done].
    unfold treatment_fields. groups_ok Hm. done.
  - apply Nat.ltb_ge in E. by rewrite (lookup_ge_None_2 lines (i + 1) E).
Qed.

Lemma details_loop_ok lines n : forall j acc,
  j + n = length lines ->
  details_loop lines (seq j n) acc = Ok (acc ++ collect_details (drop j lines)).
Proof.
  induction n as [|n IH]; intros j acc Hj; simpl.
  - rewrite drop_ge by lia. by rewrite app_nil_r.
  - unfold index. destruct (lookup_lt_is_Some_2 lines j) as [x Hx]; [lia|].
    rewrite Hx. simpl. rewrite (drop_S _ _ _ Hx). simpl.
    destruct (details_stop (strip x)).
    + by rewrite app_nil_r.
    + rewrite IH by lia. by rewrite <- app_assoc.
Qed.

Lemma details_block_ok lines i data :
  details_block lines i data = Ok (details_block_result lines i data).
Proof.
  unfold details_block, details_block_result.
  destruct (decide (i + 1 <= length lines)) as [Hi|Hi].
  - rewrite details_loop_ok by lia. simpl.
    by destruct (collect_details (drop (i + 1) lines)).
  - replace (length lines - (i + 1)) with 0 by lia. simpl.
    rewrite drop_ge by lia. done.
Qed.

Lemma scan_ok lines todo : forall i data,
  scan lines (zip (seq i (length todo)) todo) data
  = Ok (scan_result lines i todo data).
Proof.
  induction todo as [|line todo IH]; intros i data; [done|].
  simpl. unfold markers_result.
  destruct (contains "Date Stimulated" (strip line)).
  - rewrite date_stimulated_block_ok. simpl.
    destruct (contains "Type Treatment" (strip line)).
    + rewrite type_treatment_block_ok. simpl.
      destruct (contains "Details" (strip line)); [apply details_block_ok|apply IH].
    + simpl. destruct (contains "Details" (strip line)); [apply details_block_ok|apply IH].
  - simpl. destruct (contains "Type Treatment" (strip line)).
    + rewrite type_treatment_block_ok. simpl.
      destruct (contains "Details" (strip line)); [apply details_block_ok|apply IH].
    + simpl. destruct (contains "Details" (strip line)); [apply details_block_ok|apply IH].
Qed.

Lemma parse_stimulation_data_ok text :
  parse_stimulation_data text
  = Ok (scan_result (splitlines text) 0 (splitlines text) (all_unset stim_keys)).
Proof. apply scan_ok. Qed.

(* ===================================================================== *)
(** * parse_well_info never raises *)
(* ===================================================================== *)

Lemma section_text_ok text : section_text text = Ok (section_result text).
Proof.
  unfold section_text, section_result.
  destruct (re_search _ _ text) as [m|] eqn:Hm; [|done].
  destruct (re_search_group _ _ _ _ 1 Hm eq_refl) as [v Hv]. by rewrite Hv.
Qed.

Lemma match_and_set_ok section pattern key well_data :
  binds pattern 1 = true ->
  match_and_set section pattern key well_data
  = Ok (rule_result section well_data (pattern, key)).
Proof.
  intros Hb. unfold match_and_set, rule_result. simpl.
  destruct (re_search _ _ section) as [m|] eqn:Hm; [|done].
  destruct (re_search_group _ _ _ _ 1 Hm Hb) as [v Hv].
  unfold group_strip. by rewrite Hv.
Qed.

Lemma parse_well_info_ok text :
  parse_well_info text = Ok (well_result (section_result text)).
Proof.
  unfold parse_well_info. rewrite section_text_ok. simpl.
  repeat (rewrite match_and_set_ok by reflexivity; simpl).
  reflexivity.
Qed.

(* ===================================================================== *)
(** * Invariants of the records *)
(* ===================================================================== *)

Lemma dom_insert_known (k : string) (v : option string) (d : record) :
  k ∈ dom d -> dom (<[k := v]> d) = dom d.
Proof. intros Hk. apply dom_insert_lookup_L. by apply elem_of_dom. Qed.

Lemma dom_all_unset keys : dom (all_unset keys) = list_to_set keys.
Proof.
  induction keys as [|k keys IH].
  - apply dom_empty_L.
  - change (all_unset (k :: keys)) with (<[k := None]> (all_unset keys)).
    by rewrite dom_insert_L, IH.
Qed.

Lemma stim_shape_insert k v d :
  k ∈ stim_keys -> stim_shape d -> stim_shape (<[k := v]> d).
Proof.
  unfold stim_shape. intros Hk H. rewrite dom_insert_known; [done|].
  by rewrite H, elem_of_list_to_set.
Qed.

Ltac known_keys :=
  repeat (apply stim_shape_insert; [by repeat constructor|]); try assumption.

Lemma date_fields_shape m d : stim_shape d -> stim_shape (date_fields m d).
Proof.
  unfold date_fields. intros H. known_keys.
Qed.

Lemma treatment_fields_shape m d : stim_shape d -> stim_shape (treatment_fields m d).
Proof.
  unfold treatment_fields. intros H. known_keys.
Qed.

Lemma markers_result_shape lines i line d :
  stim_shape d -> stim_shape (markers_result lines i line d).
Proof.
  intros H. unfold markers_result, date_block_result, treatment_block_result.
  repeat case_match; auto using date_fields_shape, treatment_fields_shape.
Qed.

Lemma details_block_result_shape lines i d :
  stim_shape d -> stim_shape (details_block_result lines i d).
Proof.
  unfold details_block_result. intros H.
  case_match; [done|]. known_keys.
Qed.

Lemma scan_result_shape lines todo : forall i d,
  stim_shape d -> stim_shape (scan_result lines i todo d).
Proof.
  induction todo as [|line todo IH]; intros i d H; simpl; [done|].
  case_match; auto using details_block_result_shape, markers_result_shape.
Qed.

Lemma rule_result_shape section d rule :
  rule.2 ∈ well_keys -> well_shape d -> well_shape (rule_result section d rule).
Proof.
  unfold well_shape, rule_result. intros Hk H. case_match; [|done].
  rewrite dom_insert_known; [done|]. by rewrite H, elem_of_list_to_set.
Qed.

Lemma well_result_shape section : well_shape (well_result section).
Proof.
  unfold well_result.
  assert (Forall (fun rule => rule.2 ∈ well_keys) well_rules) as Hr.
  { unfold well_rules, well_keys. repeat constructor. }
  assert (well_shape (all_unset well_keys)) as H0 by apply dom_all_unset.
  revert H0. generalize (all_unset well_keys).
  induction Hr as [|rule rules Hk _ IH]; intros d Hd; simpl; [done|].
  apply IH. by apply rule_result_shape.
Qed.

(** Each block leaves the keys it does not assign alone. *)
Ltac other_keys Hk :=
  repeat (apply not_elem_of_cons in Hk as [? Hk]);
  by rewrite ?lookup_insert_ne by done.

Lemma date_fields_other m (d : record) k :
  k ∉ date_keys -> date_fields m d !! k = d !! k.
Proof. intros Hk. unfold date_fields. other_keys Hk. Qed.

Lemma treatment_fields_other m (d : record) k :
  k ∉ treatment_keys -> treatment_fields m d !! k = d !! k.
Proof. intros Hk. unfold treatment_fields. other_keys Hk. Qed.

Lemma date_block_result_other lines i (d : record) k :
  k ∉ date_keys -> date_block_result lines i d !! k = d !! k.
Proof.
  intros Hk. unfold date_block_result. repeat case_match; try done.
  by apply date_fields_other.
Qed.

Lemma treatment_block_result_other lines i (d : record) k :
  k ∉ treatment_keys -> treatment_block_result lines i d !! k = d !! k.
Proof.
  intros Hk. unfold treatment_block_result. repeat case_match; try done.
  by apply treatment_fields_other.
Qed.

Lemma details_block_result_other lines i (d : record) k :
  k ≠ "proppant_details" -> details_block_result lines i d !! k = d !! k.
Proof.
  intros Hk. unfold details_block_result. case_match; [done|].
  by rewrite lookup_insert_ne.
Qed.

Lemma markers_result_other lines i line (d : record) k :
  k ∉ date_keys -> k ∉ treatment_keys ->
  markers_result lines i line d !! k = d !! k.
Proof.
  intros H1 H2. unfold markers_result.
  repeat case_match;
    rewrite ?treatment_block_result_other, ?date_block_result_other by done; done.
Qed.

Lemma scan_result_other lines todo k : forall i (d : record),
  k ∉ date_keys -> k ∉ treatment_keys -> k ≠ "proppant_details" ->
  scan_result lines i todo d !! k = d !! k.
Proof.
  induction todo as [|line todo IH]; intros i d H1 H2 H3; simpl; [done|].
  case_match.
  - by rewrite details_block_result_other, markers_result_other.
  - by rewrite IH, markers_result_other.
Qed.

(* ===================================================================== *)
(** * Texts of no known template *)
(* ===================================================================== *)

Lemma has_char_app c s t : has_char c (s +:+ t) = has_char c s || has_char c t.
Proof.
  induction s as [|x s IH]; [done|]. rewrite app_cons. simpl.
  by rewrite IH, orb_assoc.
Qed.

Lemma accepts_colon f x : accepts f (Lit ":") x = true -> x = ":"%char.
Proof.
  destruct f as [[] ?]; simpl.
  - destruct x as [[] [] [] [] [] [] [] []]; vm_compute; congruence.
  - by intros ->%Ascii.eqb_eq.
Qed.

Lemma den_requires f r s g g' :
  Den f r s g g' -> requires r ":" = true -> has_char ":" s = true.
Proof.
  induction 1 as [g|a c g Hc|greedy a s g Hs|r1 r2 s1 s3 g g' g'' _ IH1 _ IH2
                  |r1 r2 s g g' _ IH|r1 r2 s g g' _ IH|m r s g g' _ IH]; simpl;
    try done.
  - destruct a as [l| |p]; try done. intros ->%Ascii.eqb_eq.
    apply accepts_colon in Hc as ->. done.
  - rewrite has_char_app. intros [?|?]%orb_prop; rewrite ?IH1, ?IH2 by done;
      auto using orb_true_r.
  - intros [??]%andb_prop. auto.
  - intros [??]%andb_prop. auto.
Qed.

Lemma re_search_requires f r s :
  requires r ":" = true -> has_char ":" s = false -> re_search f r s = None.
Proof.
  intros Hr Hs. destruct (re_search f r s) as [m|] eqn:Hm; [|done].
  apply re_search_found in Hm as (pre & s' & -> & Hm).
  apply re_match_sound in Hm as (s1 & -> & D).
  apply den_requires in D; [|done].
  rewrite !has_char_app, D in Hs. by rewrite orb_true_r in Hs.
Qed.

(** What a group holds was read from the matched text. *)
Lemma den_group_substring f r s g g' n v :
  Den f r s g g' -> lookup_group g' n = Some v ->
  lookup_group g n = Some v \/ exists a b, s = a +:+ v +:+ b.
Proof.
  induction 1 as [g|a c g Hc|greedy a s g Hs|r1 r2 s1 s3 g g' g'' _ IH1 _ IH2
                  |r1 r2 s g g' _ IH|r1 r2 s g g' _ IH|m r s g g' _ IH]; simpl;
    auto.
  - intros [H|(a & b & ->)]%IH2.
    + apply IH1 in H as [H|(a & b & ->)]; [by left|right].
      exists a, (b +:+ s3). by rewrite !app_assoc_str.
    + right. exists (s1 +:+ a), b. by rewrite !app_assoc_str.
  - destruct (Nat.eqb m n); [|done]. intros [= ->]. right.
    exists "", "". by rewrite app_empty_r.
Qed.

Lemma section_result_colon text :
  has_char ":" text = false -> has_char ":" (section_result text) = false.
Proof.
  intros Ht. unfold section_result.
  destruct (re_search _ _ text) as [m|] eqn:Hm; [|done].
  destruct (group m 1) as [v|] eqn:Hv; [|done]. simpl.
  apply re_search_found in Hm as (pre & s' & -> & Hm).
  apply re_match_sound in Hm as (s1 & -> & D).
  eapply den_group_substring in D as [D|(a & b & E)]; [done| |exact Hv].
  subst s1. rewrite !has_char_app in Ht.
  destruct (has_char ":" v); [|done].
  by rewrite !orb_true_r, ?orb_true_l in Ht.
Qed.

Lemma well_result_unset section :
  has_char ":" section = false -> well_result section = all_unset well_keys.
Proof.
  intros H. unfold well_result, well_rules, rule_result. cbn [foldl fst snd].
  by rewrite !re_search_requires.
Qed.






(** C10: the acid_percent field starts unset and no rule assigns it: for
    every text the record returned holds [None] under that key. *)
Theorem acid_percent_always_unset (text : string) :
  all_unset stim_keys !! "acid_percent" = Some None
  /\ exists stim : record,
       parse_stimulation_data text = Ok stim
       /\ stim !! "acid_percent" = Some None.
Proof.
  split; [reflexivity|]. eexists. split; [apply parse_stimulation_data_ok|].
  rewrite scan_result_other; [reflexivity|..]; unfold date_keys, treatment_keys;
    rewrite ?not_elem_of_cons; try done.
  all: split_and!; try done; apply not_elem_of_nil.
Qed.

(* ===================================================================== *)
(** * The Details block *)
(* ===================================================================== *)

Lemma startswith_spec p s : startswith p s = true <-> exists r, s = p +:+ r.
Proof.
  revert s. induction p as [|a p IH]; intros s; simpl.
  - split; [by exists s|done].
  - destruct s as [|b s].
    + split; [done|]. intros [r Hr]. by rewrite app_cons in Hr.
    + rewrite andb_true_iff, IH, Ascii.eqb_eq. split.
      * intros [-> [r ->]]. by exists r.
      * intros [r Hr]. rewrite app_cons in Hr. injection Hr as -> ->. eauto.
Qed.

Lemma details_stop_spec x : details_stop (strip x) = true <-> ends_details x.
Proof.
  unfold details_stop, ends_details.
  rewrite !orb_true_iff, !startswith_spec, String.eqb_eq. tauto.
Qed.

Lemma collect_details_spec post :
  exists n,
    n <= length post
    /\ collect_details post = strip <$> take n post
    /\ (forall x, x ∈ take n post -> ~ ends_details x)
    /\ (n = length post \/ exists x, post !! n = Some x /\ ends_details x).
Proof.
  induction post as [|x post (n & Hn & Hc & Hbefore & Hat)]; simpl.
  - exists 0. split_and!; [done|done| |by left]. intros x H. by apply elem_of_nil in H.
  - destruct (details_stop (strip x)) eqn:Hx.
    + exists 0. split_and!; [lia|done| |].
      * intros y H. by apply elem_of_nil in H.
      * right. exists x. split; [done|]. by apply details_stop_spec.
    + exists (S n). split_and!; [lia|by rewrite Hc| |].
      * intros y [->|H]%elem_of_cons; [|by apply Hbefore].
        rewrite <- details_stop_spec. by rewrite Hx.
      * destruct Hat as [->|Hat]; [by left|by right].
Qed.

Lemma scan_result_until_details lines pre l post : forall i (d : record),
  Forall (fun x => contains "Details" (strip x) = false) pre ->
  contains "Details" (strip l) = true ->
  scan_result lines i (pre ++ l :: post) d
  = details_block_result lines (i + length pre)
      (markers_result lines (i + length pre) l (markers_fold lines i pre d)).
Proof.
  induction pre as [|x pre IH]; intros i d Hpre Hl; simpl.
  - rewrite Hl. by rewrite Nat.add_0_r.
  - apply Forall_cons in Hpre as [Hx Hpre]. rewrite Hx, IH by done.
    by replace (S i + length pre) with (i + S (length pre)) by lia.
Qed.

(** The marker blocks read [lines] only through the line after their own. *)
Lemma markers_result_ext lines lines' i line (d : record) :
  next_line lines i = next_line lines' i ->
  markers_result lines i line d = markers_result lines' i line d.
Proof.
  intros H. unfold markers_result, date_block_result, treatment_block_result.
  by rewrite H.
Qed.

Lemma markers_fold_ext lines lines' todo : forall i (d : record),
  (forall j, i <= j < i + length todo -> next_line lines j = next_line lines' j) ->
  markers_fold lines i todo d = markers_fold lines' i todo d.
Proof.
  induction todo as [|x todo IH]; intros i d H; simpl; [done|].
  rewrite (markers_result_ext lines lines') by (apply H; simpl; lia).
  apply IH. intros j Hj. apply H. simpl. lia.
Qed.

Lemma next_line_same_head (pre : list string) l post post' j :
  head post' = head post -> j <= length pre ->
  next_line (pre ++ l :: post') j = next_line (pre ++ l :: post) j.
Proof.
  intros Hh Hj. unfold next_line. f_equal.
  destruct (decide (j + 1 < length pre)) as [Hlt|Hge].
  - by rewrite !lookup_app_l by lia.
  - rewrite (lookup_app_r pre (l :: post')), (lookup_app_r pre (l :: post)) by lia.
    destruct (decide (j = length pre)) as [->|Hne].
    + replace (length pre + 1 - length pre) with 1 by lia. simpl.
      by rewrite <- !head_lookup.
    + by replace (j + 1 - length pre) with 0 by lia.
Qed.

(** C3: at the first line that contains "Details", the lines that follow
    are collected, trimmed, up to the first one that is empty or begins with
    one of the two headers; joined by newlines they become proppant_details
    (unset when none was collected), and the scan ends there: whatever
    follows, beyond the line right after the Details line, changes no other
    field. *)
Theorem details_block_ends_scan (text : string) (pre : list string)
    (l : string) (post : list string) :
  splitlines text = pre ++ l :: post ->
  Forall (fun x => contains "Details" (strip x) = false) pre ->
  contains "Details" (strip l) = true ->
  exists (stim : record) (n : nat),
    parse_stimulation_data text = Ok stim
    /\ n <= length post
    /\ (forall x, x ∈ take n post -> ~ ends_details x)
    /\ (n = length post \/ exists x, post !! n = Some x /\ ends_details x)
    /\ stim !! "proppant_details"
       = Some (if decide (n = 0) then None
               else Some (join newline (strip <$> take n post)))
    /\ (forall (text' : string) (post' : list string),
          splitlines text' = pre ++ l :: post' ->
          head post' = head post ->
          exists stim' : record,
            parse_stimulation_data text' = Ok stim'
            /\ forall k, k ≠ "proppant_details" -> stim' !! k = stim !! k).
Proof.
  intros Hlines Hpre Hl.
  destruct (collect_details_spec post) as (n & Hn & Hc & Hbefore & Hat).
  eexists _, n. split; [apply parse_stimulation_data_ok|].
  rewrite Hlines. rewrite scan_result_until_details by done. simpl.
  split_and!; try done.
  - unfold details_block_result.
    replace (drop (length pre + 1) (pre ++ l :: post)) with post.
    2:{ rewrite drop_app_ge by lia.
        by replace (length pre + 1 - length pre) with 1 by lia. }
    rewrite Hc.
    assert ("proppant_details" ∉ date_keys ++ treatment_keys) as Hk.
    { unfold date_keys, treatment_keys. simpl. rewrite !not_elem_of_cons.
      split_and!; try done. apply not_elem_of_nil. }
    apply not_elem_of_app in Hk as [Hk1 Hk2].
    assert (forall d : record, d !! "proppant_details" = Some None ->
              markers_result (pre ++ l :: post) (length pre) l d !! "proppant_details" = Some None) as Hm.
    { intros d Hd. by rewrite markers_result_other. }
    assert (forall todo i (d : record), d !! "proppant_details" = Some None ->
              markers_fold (pre ++ l :: post) i todo d !! "proppant_details" = Some None) as Hf.
    { induction todo as [|x todo IH]; intros i d Hd; simpl; [done|].
      apply IH. by rewrite markers_result_other. }
    destruct n as [|n]; simpl.
    + apply Hm, Hf. reflexivity.
    + destruct post as [|y post]; [simpl in Hn; lia|]. simpl.
      by rewrite lookup_insert_eq.
  - intros text' post' Hlines' Hh.
    eexists. split; [apply parse_stimulation_data_ok|].
    rewrite Hlines'. rewrite scan_result_until_details by done. simpl.
    intros k Hk. rewrite !details_block_result_other by done.
    rewrite (markers_result_ext (pre ++ l :: post') (pre ++ l :: post))
      by (by apply next_line_same_head).
    f_equal. f_equal. apply markers_fold_ext.
    intros j Hj. apply next_line_same_head; [done|lia].
Qed.

Lemma details_block_ends_scan_witness :
  exists (stim : record) (n : nat),
    parse_stimulation_data (join newline ("Proppant Details" :: sample_details)) = Ok stim
    /\ n <= length sample_details
    /\ (forall x, x ∈ take n sample_details -> ~ ends_details x)
    /\ (n = length sample_details
        \/ exists x, sample_details !! n = Some x /\ ends_details x)
    /\ stim !! "proppant_details"
       = Some (if decide (n = 0) then None
               else Some (join newline (strip <$> take n sample_details)))
    /\ (forall (text' : string) (post' : list string),
          splitlines text' = [] ++ "Proppant Details" :: post' ->
          head post' = head sample_details ->
          exists stim' : record,
            parse_stimulation_data text' = Ok stim'
            /\ forall k, k ≠ "proppant_details" -> stim' !! k = stim !! k).
Proof.
  apply (details_block_ends_scan
           (join newline ("Proppant Details" :: sample_details))
           [] "Proppant Details" sample_details);
    [reflexivity|constructor|reflexivity].
Defined.

(** The example of the specification: two lines after the marker, then a
    blank line; the second Details block is never reached. *)
Example details_block_example :
  (stim ← parse_stimulation_data
            (join newline ("Proppant Details" :: sample_details));
   getitem stim "proppant_details")
  = Ok (Some ("40/70 White Sand" +:+ newline +:+ "100 Mesh")).
Proof. vm_compute. reflexivity. Qed.

(* ===================================================================== *)
(** * Several episodes in one document *)
(* ===================================================================== *)

(** C8: the docstring promises the first block of stimulation data, but
    without a Details line in between the second episode overwrites the
    first: here every date and treatment field comes from the second. *)
Theorem later_episode_overwrites_first :
  (stim ← parse_stimulation_data two_episodes;
   values_of (date_keys ++ treatment_keys) stim)
  = Ok [Some "2016-07-10"; Some "Bakken"; Some "9000"; Some "19000";
        Some "40"; Some "99999"; Some "Gallons";
        Some "Acid Frac"; Some "1000"; Some "8000"; Some "25.5"].
Proof. vm_compute. reflexivity. Qed.

(* ===================================================================== *)
(** * main: which records are forwarded *)
(* ===================================================================== *)

Lemma values_of_ok (keys : list string) (d : record) :
  (forall k, k ∈ keys -> is_Some (d !! k)) ->
  values_of keys d = Ok ((fun k => default None (d !! k)) <$> keys).
Proof.
  induction keys as [|k keys IH]; intros H; [done|].
  simpl. unfold getitem at 1.
  destruct (H k) as [v Hv]; [by left|]. rewrite Hv. simpl.
  rewrite IH; [done|]. intros k' Hk'. apply H. by right.
Qed.

Lemma shape_lookup (keys : list string) (d : record) k :
  dom d = list_to_set keys -> k ∈ keys -> is_Some (d !! k).
Proof. intros Hd Hk. apply elem_of_dom. by rewrite Hd, elem_of_list_to_set. Qed.

Lemma normalize_date_nonempty m : normalize_date m <> Some "".
Proof.
  unfold normalize_date. destruct (group_strip m 1) as [a|]; simpl; try done.
  destruct (Datetime.strptime_mdY a) as [d|]; simpl; done.
Qed.

Ltac not_in_keys :=
  unfold date_keys, treatment_keys;
  repeat (apply not_elem_of_cons; split; [done|]); apply not_elem_of_nil.

Lemma scan_result_date_sane lines todo : forall i (d : record),
  date_sane d -> date_sane (scan_result lines i todo d).
Proof.
  assert (forall i line d, date_sane d -> date_sane (markers_result lines i line d)) as Hm.
  { intros i line d Hd. unfold markers_result.
    set (d1 := if contains "Date Stimulated" (strip line)
               then date_block_result lines i d else d).
    assert (date_sane d1) as Hd1.
    { unfold d1. case_match; [|done]. unfold date_block_result.
      repeat case_match; try done.
      unfold date_sane, date_fields. rewrite !lookup_insert_ne by done.
      rewrite lookup_insert_eq. intros [= Hn]. by apply normalize_date_nonempty in Hn. }
    destruct (contains "Type Treatment" (strip line)); [|done].
    unfold date_sane. rewrite treatment_block_result_other; [exact Hd1|not_in_keys]. }
  induction todo as [|line todo IH]; intros i d Hd; simpl; [done|].
  case_match; [|by apply IH, Hm].
  unfold date_sane. rewrite details_block_result_other by done. by apply Hm.
Qed.

Lemma truthy_spec v : truthy v = true <-> exists s, v = Some s /\ s <> "".
Proof.
  destruct v as [[|c s]|]; simpl; split; try done.
  - by intros (s & [= <-] & ?).
  - intros _. by eexists.
  - by intros (s & ? & ?).
Qed.

Lemma res_ok_inj {A} (a b : A) : Ok a = Ok b -> a = b.
Proof. congruence. Qed.

Lemma res_bind_ok {A B} (a : A) (k : A -> res B) : (Ok a ≫= k) = k a.
Proof. reflexivity. Qed.

Lemma getitem_ok (keys : list string) (d : record) k :
  dom d = list_to_set keys -> k ∈ keys ->
  exists v, d !! k = Some v /\ getitem d k = Ok v.
Proof.
  intros Hd Hk. destruct (shape_lookup keys d k Hd Hk) as [v Hv].
  exists v. unfold getitem. by rewrite Hv.
Qed.

(** C4, as the code has it: the well record is forwarded first and in every
    case; the stimulation record follows exactly when date_stimulated is set
    or stimulated_formation is set to a text that is not empty. *)
Theorem stimulation_forwarded_iff_signal (text : string) (well_info_id : nat) :
  exists (well stim : record) (wv sv : list (option string)),
    parse_well_info text = Ok well
    /\ parse_stimulation_data text = Ok stim
    /\ values_of well_keys well = Ok wv
    /\ values_of stim_columns stim = Ok sv
    /\ (is_set stim "date_stimulated" \/ is_set_nonempty stim "stimulated_formation" ->
        process_document text well_info_id
        = Ok [insert_well_info wv; insert_stimulation_data well_info_id sv])
    /\ (~ (is_set stim "date_stimulated" \/ is_set_nonempty stim "stimulated_formation") ->
        process_document text well_info_id = Ok [insert_well_info wv]).
Proof.
  set (well := well_result (section_result text)).
  set (stim := scan_result (splitlines text) 0 (splitlines text) (all_unset stim_keys)).
  assert (stim_shape stim) as Hs by apply scan_result_shape, dom_all_unset.
  assert (date_sane stim) as Hsane by (by apply scan_result_date_sane).
  pose proof (well_result_shape (section_result text)) as Hw. fold well in Hw.
  assert (values_of well_keys well = Ok ((fun k => default None (well !! k)) <$> well_keys)) as Hwv.
  { apply values_of_ok. intros k Hk. by eapply shape_lookup. }
  assert (values_of stim_columns stim
          = Ok ((fun k => default None (stim !! k)) <$> stim_columns)) as Hsv.
  { apply values_of_ok. intros k Hk. eapply shape_lookup; [exact Hs|].
    unfold stim_columns in Hk.
    repeat (apply elem_of_cons in Hk as [->|Hk]; [by repeat constructor|]).
    by apply elem_of_nil in Hk. }
  destruct (getitem_ok stim_keys stim "date_stimulated" Hs) as (date & Hd & Hgd);
    [by repeat constructor|].
  destruct (getitem_ok stim_keys stim "stimulated_formation" Hs) as (name & Hf & Hgf);
    [by repeat constructor|].
  assert (truthy date || truthy name = true
          <-> is_set stim "date_stimulated" \/ is_set_nonempty stim "stimulated_formation")
    as Hiff.
  { rewrite orb_true_iff, !truthy_spec. unfold is_set, is_set_nonempty.
    rewrite Hd, Hf. split.
    - intros [(s & -> & _)|(s & -> & Hne)]; [left|right]; eauto.
    - intros [(s & [= ->])|(s & [= ->] & Hne)]; [left|right]; eauto.
      exists s. split; [done|]. intros ->. by apply Hsane. }
  assert (process_document text well_info_id
          = if truthy date || truthy name
            then Ok [insert_well_info ((fun k => default None (well !! k)) <$> well_keys);
                     insert_stimulation_data well_info_id
                       ((fun k => default None (stim !! k)) <$> stim_columns)]
            else Ok [insert_well_info ((fun k => default None (well !! k)) <$> well_keys)])
    as Hp.
  { unfold process_document. rewrite parse_well_info_ok, res_bind_ok. fold well.
    rewrite Hwv, res_bind_ok. rewrite parse_stimulation_data_ok, res_bind_ok.
    fold stim. rewrite Hgd, res_bind_ok. destruct (truthy date).
    - by rewrite res_bind_ok, Hsv, res_bind_ok.
    - rewrite Hgf, !res_bind_ok. destruct (truthy name); [|done].
      by rewrite Hsv, res_bind_ok. }
  eexists well, stim, _, _. split_and!.
  - apply parse_well_info_ok.
  - apply parse_stimulation_data_ok.
  - exact Hwv.
  - exact Hsv.
  - intros H%Hiff. by rewrite Hp, H.
  - intros H. rewrite Hp. destruct (truthy date || truthy name); [|done].
    contradict H. by apply Hiff.
Qed.

Lemma stimulation_forwarded_iff_signal_witness :
  exists wv sv,
    process_document two_episodes 7
    = Ok [insert_well_info wv; insert_stimulation_data 7 sv].
Proof.
  destruct (stimulation_forwarded_iff_signal two_episodes 7)
    as (well & stim & wv & sv & _ & Hs & _ & _ & Hyes & _).
  exists wv, sv. apply Hyes. left.
  rewrite parse_stimulation_data_ok in Hs. apply res_ok_inj in Hs as <-.
  exists "2016-07-10". vm_compute. reflexivity.
Defined.

(** C4 as the specification states it fails: here stimulated_formation is set (to the
    empty text the pattern captured) and yet only the well record is
    forwarded. *)
Lemma empty_formation_is_set_but_not_forwarded :
  (stim ← parse_stimulation_data no_date_no_name;
   values_of ["date_stimulated"; "stimulated_formation"] stim)
  = Ok [None; Some ""]
  /\ process_document no_date_no_name 7 = Ok [insert_well_info (replicate 10 None)].
Proof. split; vm_compute; reflexivity. Qed.

(* ===================================================================== *)
(** * How the matcher runs on words, runs of characters and searches *)
(* ===================================================================== *)

Section Evaluation.
Context {R : Type}.
Variable f : flags.
Implicit Types (k : string -> groups -> option R) (s : string) (g : groups).

Lemma rmatch_word w s g k :
  rmatch f (Word w) s g k
  = match lit_prefix f w s with Some rest => k rest g | None => None end.
Proof.
  revert s. induction w as [|c w IH]; intros s; [done|].
  destruct w as [|c' w].
  - cbn [rmatch lit_prefix Word]. destruct s as [|x s]; [done|].
    by destruct (accepts f (Lit c) x).
  - change (Word (String c (String c' w)))
      with (Cat (One (Lit c)) (Word (String c' w))).
    cbn [rmatch lit_prefix]. destruct s as [|x s]; [done|].
    destruct (accepts f (Lit c) x); [|done]. apply IH.
Qed.

(** A greedy star in front of a run it accepts, when what follows the run
    cannot extend it and the continuation succeeds there. *)
Lemma star_greedy_run a run rest g k r :
  all_chars (accepts f a) run = true ->
  (forall c rest', rest = String c rest' -> accepts f a c = false) ->
  k rest g = Some r ->
  star_greedy f a (run +:+ rest) g k = Some r.
Proof.
  intros Hrun Hstop Hk. induction run as [|c run IH].
  - rewrite app_empty_l. destruct rest as [|c rest]; [done|]. simpl.
    by rewrite (Hstop c rest).
  - simpl in Hrun. apply andb_prop in Hrun as [Hc Hrun].
    rewrite app_cons. simpl. by rewrite Hc, IH.
Qed.

(** A greedy star that accepts everything reads to the end. *)
Lemma star_greedy_all a s g k r :
  (forall c, accepts f a c = true) -> k "" g = Some r ->
  star_greedy f a s g k = Some r.
Proof.
  intros Ha Hk. induction s as [|c s IH]; [done|]. simpl. by rewrite Ha, IH.
Qed.

(** A lazy star stops at the first place where the continuation succeeds. *)
Lemma star_lazy_first a body rest g k r :
  all_chars (accepts f a) body = true ->
  (forall b1 b2, body = b1 +:+ b2 -> b2 <> "" -> k (b2 +:+ rest) g = None) ->
  k rest g = Some r ->
  star_lazy f a (body +:+ rest) g k = Some r.
Proof.
  intros Hbody Hnot Hk. induction body as [|c body IH].
  - rewrite app_empty_l. destruct rest; simpl; by rewrite Hk.
  - simpl in Hbody. apply andb_prop in Hbody as [Hc Hbody].
    rewrite app_cons. simpl.
    rewrite <- app_cons, (Hnot "" (String c body)) by done.
    rewrite Hc. apply IH; [done|]. intros b1 b2 -> Hb2.
    apply (Hnot (String c b1) b2); [by rewrite app_cons|done].
Qed.
End Evaluation.

Lemma re_search_here f r s m : re_match f r s = Some m -> re_search f r s = Some m.
Proof. intros H. destruct s; simpl; by rewrite H. Qed.

Lemma re_search_skip f r pre s :
  (forall p1 p2, pre = p1 +:+ p2 -> p2 <> "" -> re_match f r (p2 +:+ s) = None) ->
  re_search f r (pre +:+ s) = re_search f r s.
Proof.
  induction pre as [|c pre IH]; intros H; [done|].
  rewrite app_cons. simpl. rewrite <- app_cons, (H "" (String c pre)) by done.
  apply IH. intros p1 p2 -> Hp2. apply (H (String c p1) p2); [by rewrite app_cons|done].
Qed.

(** Two ways to cut one text. *)
Lemma app_eq_app_str (a b c d : string) :
  a +:+ b = c +:+ d ->
  (exists u, c = a +:+ u /\ b = u +:+ d) \/ (exists u, a = c +:+ u /\ d = u +:+ b).
Proof.
  revert c. induction a as [|x a IH]; intros c H.
  - left. exists c. by rewrite app_empty_l in *.
  - destruct c as [|y c].
    + right. exists (String x a). by rewrite app_empty_l in *.
    + rewrite !app_cons in H. injection H as -> H.
      destruct (IH c H) as [(u & -> & ->)|(u & -> & ->)]; [left|right];
        exists u; by rewrite ?app_cons.
Qed.

Lemma lower_app a b : lower (a +:+ b) = lower a +:+ lower b.
Proof. induction a as [|c a IH]; [done|]. rewrite app_cons. simpl. by rewrite IH. Qed.

Lemma length_lower a : String.length (lower a) = String.length a.
Proof. induction a as [|c a IH]; [done|]. simpl. by rewrite IH. Qed.

Lemma ci_eq_length a b : ci_eq a b -> String.length a = String.length b.
Proof. intros H. by rewrite <- (length_lower a), H, length_lower. Qed.

(** Under IGNORECASE a literal word matches the texts equal to it up to
    case. *)
Lemma lit_prefix_ci f w s rest :
  ignorecase f = true ->
  lit_prefix f w s = Some rest <-> exists h, s = h +:+ rest /\ ci_eq h w.
Proof.
  intros Hf. unfold ci_eq. revert s. induction w as [|c w IH]; intros s; simpl.
  - split.
    + intros [= ->]. by exists "".
    + intros (h & -> & Hh). destruct h; [done|discriminate].
  - rewrite Hf. destruct s as [|x s].
    + split; [done|]. intros (h & Hs & Hh). symmetry in Hs.
      apply app_is_empty in Hs as [-> _]. discriminate.
    + destruct (Ascii.eqb (to_lower x) (to_lower c)) eqn:E.
      * apply Ascii.eqb_eq in E. rewrite IH. split.
        -- intros (h & -> & Hh). exists (String x h). simpl. by rewrite E, Hh.
        -- intros (h & Hs & Hh). destruct h as [|y h]; [discriminate|].
           rewrite app_cons in Hs. injection Hs as <- ->. injection Hh as _ Hh. eauto.
      * split; [done|]. intros (h & Hs & Hh). destruct h as [|y h]; [discriminate|].
        rewrite app_cons in Hs. injection Hs as <- ->. injection Hh as Hx _.
        apply Ascii.eqb_neq in E. done.
Qed.

(* ===================================================================== *)
(** * Section isolation *)
(* ===================================================================== *)

Lemma consumed_all s : consumed s "" = s.
Proof. rewrite <- (app_empty_r s) at 1. apply consumed_app. Qed.

Lemma re_search_first f r s m :
  re_search f r s = Some m ->
  exists pre s',
    s = pre +:+ s' /\ re_match f r s' = Some m
    /\ forall p1 p2, pre = p1 +:+ p2 -> p2 <> "" -> re_match f r (p2 +:+ s') = None.
Proof.
  induction s as [|c s IH]; simpl.
  - destruct (re_match f r "") eqn:E; [|done]. intros [= <-].
    exists "", "". split_and!; [done|done|]. intros p1 p2 H.
    symmetry in H. by apply app_is_empty in H as [_ ->].
  - destruct (re_match f r (String c s)) eqn:E.
    + intros [= <-]. exists "", (String c s). split_and!; [done|done|].
      intros p1 p2 H. symmetry in H. by apply app_is_empty in H as [_ ->].
    + intros (pre & s' & -> & Hm & Hfirst)%IH.
      exists (String c pre), s'. split_and!; [done|done|].
      intros p1 p2 H Hp2. destruct p1 as [|x p1].
      * rewrite app_empty_l in H. by subst p2.
      * rewrite app_cons in H. injection H as _ ->. by apply (Hfirst p1).
Qed.

Lemma re_search_later f r pre s :
  is_Some (re_match f r s) -> is_Some (re_search f r (pre +:+ s)).
Proof.
  intros [m Hm]. induction pre as [|c pre IH].
  - exists m. by apply re_search_here.
  - rewrite app_cons. simpl. by destruct (re_match f r (String c _)).
Qed.

(** What [re.match] of the section pattern returns at one position. *)
Lemma section_match_eval s :
  re_match DOTALL_IGNORECASE section_pattern s
  = (fun post => {| m_groups := [(1, post)]; m_rest := "" |})
    <$> (match lit_prefix DOTALL_IGNORECASE "Well Information" s with
         | Some post => Some post
         | None => lit_prefix DOTALL_IGNORECASE "WELL DATA SUMMARY" s
         end).
Proof.
  unfold re_match, section_pattern. cbn [rmatch]. rewrite !rmatch_word.
  assert (forall post,
    star_greedy DOTALL_IGNORECASE Dot post []
      (fun s' g' => Some {| m_groups := (1, consumed post s') :: g'; m_rest := s' |})
    = Some {| m_groups := [(1, post)]; m_rest := "" |}) as Hstar.
  { intros post. apply star_greedy_all; [done|]. by rewrite consumed_all. }
  destruct (lit_prefix DOTALL_IGNORECASE "Well Information" s) as [post|].
  - by rewrite Hstar.
  - destruct (lit_prefix DOTALL_IGNORECASE "WELL DATA SUMMARY" s) as [post|]; [|done].
    by rewrite Hstar.
Qed.

Lemma section_match_some s :
  is_Some (re_match DOTALL_IGNORECASE section_pattern s)
  <-> exists h post, s = h +:+ post /\ is_header h.
Proof.
  rewrite section_match_eval, fmap_is_Some. unfold is_header. split.
  - destruct (lit_prefix _ "Well Information" s) as [post|] eqn:E1.
    + apply lit_prefix_ci in E1 as (h & -> & Hh); [|done]. eauto.
    + intros [post E2]. apply lit_prefix_ci in E2 as (h & -> & Hh); [|done]. eauto.
  - intros (h & post & -> & [Hh|Hh]).
    + assert (lit_prefix DOTALL_IGNORECASE "Well Information" (h +:+ post) = Some post) as ->;
        [|done]. apply lit_prefix_ci; eauto.
    + destruct (lit_prefix _ "Well Information" _); [done|].
      assert (lit_prefix DOTALL_IGNORECASE "WELL DATA SUMMARY" (h +:+ post) = Some post) as ->;
        [|done]. apply lit_prefix_ci; eauto.
Qed.

(** The two headers differ up to case, so at one position the text after
    the header is determined. *)
Lemma header_post_unique h post h' post' :
  h +:+ post = h' +:+ post' -> is_header h -> is_header h' -> post = post'.
Proof.
  intros Heq Hh Hh'.
  assert (forall a b u, ci_eq a "Well Information" -> ci_eq b "WELL DATA SUMMARY" ->
                        b = a +:+ u -> False) as Hdiff.
  { intros a b u Ha Hb ->. unfold ci_eq in *. rewrite lower_app, Ha in Hb.
    vm_compute in Hb. discriminate. }
  assert (forall a b u, ci_eq a "WELL DATA SUMMARY" -> ci_eq b "Well Information" ->
                        b = a +:+ u -> False) as Hdiff'.
  { intros a b u Ha Hb ->. unfold ci_eq in *. rewrite lower_app, Ha in Hb.
    vm_compute in Hb. discriminate. }
  assert (forall a b u, String.length a = String.length b -> b = a +:+ u -> u = "") as Hsame.
  { intros a b u Hl ->. rewrite length_app_str in Hl. destruct u; [done|simpl in Hl; lia]. }
  apply app_eq_app_str in Heq as [(u & -> & ->)|(u & -> & ->)].
  - destruct Hh as [Hh|Hh], Hh' as [Hh'|Hh'].
    + rewrite (Hsame h (h +:+ u) u); [done| |done].
      by rewrite (ci_eq_length _ _ Hh), (ci_eq_length _ _ Hh').
    + by destruct (Hdiff h (h +:+ u) u).
    + by destruct (Hdiff' h (h +:+ u) u).
    + rewrite (Hsame h (h +:+ u) u); [done| |done].
      by rewrite (ci_eq_length _ _ Hh), (ci_eq_length _ _ Hh').
  - destruct Hh as [Hh|Hh], Hh' as [Hh'|Hh'].
    + rewrite (Hsame h' (h' +:+ u) u); [done| |done].
      by rewrite (ci_eq_length _ _ Hh), (ci_eq_length _ _ Hh').
    + by destruct (Hdiff' h' (h' +:+ u) u).
    + by destruct (Hdiff h' (h' +:+ u) u).
    + rewrite (Hsame h' (h' +:+ u) u); [done| |done].
      by rewrite (ci_eq_length _ _ Hh), (ci_eq_length _ _ Hh').
Qed.

Lemma section_match_group s m :
  re_match DOTALL_IGNORECASE section_pattern s = Some m ->
  exists h post, s = h +:+ post /\ is_header h /\ group m 1 = Some post.
Proof.
  intros Hm. destruct (proj1 (section_match_some s)) as (h & post & -> & Hh);
    [by rewrite Hm|].
  exists h, post. split_and!; [done|done|].
  rewrite section_match_eval in Hm.
  destruct (lit_prefix _ "Well Information" _) as [p|] eqn:E1.
  - injection Hm as <-. apply lit_prefix_ci in E1 as (h1 & E1 & Hh1); [|done].
    unfold group. simpl. f_equal. symmetry.
    eapply header_post_unique; [exact E1|done|by left].
  - destruct (lit_prefix _ "WELL DATA SUMMARY" _) as [p|] eqn:E2; [|done].
    injection Hm as <-. apply lit_prefix_ci in E2 as (h1 & E2 & Hh1); [|done].
    unfold group. simpl. f_equal. symmetry.
    eapply header_post_unique; [exact E2|done|by right].
Qed.

Lemma section_result_isolated text : isolated text (section_result text).
Proof.
  unfold section_result.
  destruct (re_search _ _ text) as [m|] eqn:Hs.
  - apply re_search_first in Hs as (pre & s' & -> & Hm & Hfirst).
    apply section_match_group in Hm as (h & post & -> & Hh & ->). simpl.
    eapply after_first_header; [done|done|].
    intros pre' h' post' Heq Hh'.
    destruct (decide (String.length pre <= String.length pre')) as [|Hlt]; [done|].
    apply app_eq_app_str in Heq as [(u & -> & Hu)|(u & -> & Hu)].
    + rewrite length_app_str. lia.
    + destruct (decide (u = "")) as [->|Hne]; [rewrite app_empty_r in Hlt; lia|].
      specialize (Hfirst pre' u eq_refl Hne). rewrite <- Hu in Hfirst.
      assert (is_Some (re_match DOTALL_IGNORECASE section_pattern (h' +:+ post'))) as [x Hx].
      { apply section_match_some. eauto. }
      congruence.
  - apply without_header. intros pre h post -> Hh.
    assert (is_Some (re_match DOTALL_IGNORECASE section_pattern (h +:+ post))) as Hx.
    { apply section_match_some. eauto. }
    apply (re_search_later _ _ pre) in Hx as [x Hx]. congruence.
Qed.

Lemma isolated_unique text out out' :
  isolated text out -> isolated text out' -> out = out'.
Proof.
  intros [pre h post Heq Hh Hmin|Hno] [pre' h' post' Heq' Hh' Hmin'|Hno'].
  - pose proof (Hmin _ _ _ Heq' Hh'). pose proof (Hmin' _ _ _ Heq Hh).
    assert (String.length pre = String.length pre') as Hl by lia.
    rewrite Heq in Heq'. apply app_eq_app_str in Heq' as [(u & -> & Hu)|(u & -> & Hu)].
    + rewrite length_app_str in Hl. destruct u; [|simpl in Hl; lia].
      rewrite app_empty_l in Hu. by eapply header_post_unique.
    + rewrite length_app_str in Hl. destruct u; [|simpl in Hl; lia].
      rewrite app_empty_l in Hu. symmetry. by eapply header_post_unique.
  - by destruct (Hno' _ _ _ Heq).
  - by destruct (Hno _ _ _ Heq').
  - done.
Qed.

(** C5: section isolation returns what follows the first occurrence, up to
    case, of "Well Information" or "WELL DATA SUMMARY", hence nothing of
    what precedes the header, and returns the text unchanged when it holds
    neither header. *)
Theorem section_isolation (text : string) :
  (exists out, isolated text out)
  /\ (forall out, isolated text out -> section_text text = Ok out).
Proof.
  split.
  - exists (section_result text). apply section_result_isolated.
  - intros out Hout. rewrite section_text_ok. f_equal.
    eapply isolated_unique; [apply section_result_isolated|done].
Qed.

Lemma section_isolation_witness :
  section_text ("WELL information" +:+ newline +:+ "Operator: Oasis  API #: 33-053")
  = Ok (newline +:+ "Operator: Oasis  API #: 33-053").
Proof.
  apply (proj2 (section_isolation _)).
  apply (after_first_header _ "" "WELL information").
  - reflexivity.
  - left. reflexivity.
  - intros pre' h' post' _ _. simpl. lia.
Defined.

Example section_text_examples :
  section_text ("cover page" +:+ newline +:+ "well data summary" +:+ newline +:+ "Datum: NAD83")
  = Ok (newline +:+ "Datum: NAD83")
  /\ section_text ("Operator: Oasis" +:+ newline +:+ "no header here")
     = Ok ("Operator: Oasis" +:+ newline +:+ "no header here").
Proof. split; vm_compute; reflexivity. Qed.

(* ===================================================================== *)
(** * [str.strip] *)
(* ===================================================================== *)

Lemma lstrip_head s c t : lstrip s = String c t -> is_space c = false.
Proof.
  induction s as [|x s IH]; simpl; [done|].
  destruct (is_space x) eqn:E; [done|]. by intros [= <- _].
Qed.

Lemma lstrip_blank_app l s : all_chars is_space l = true -> lstrip (l +:+ s) = lstrip s.
Proof.
  induction l as [|x l IH]; simpl; [done|]. intros [Hx Hl]%andb_prop.
  rewrite ?app_cons. simpl. rewrite Hx. auto.
Qed.

Lemma lstrip_fix c t : is_space c = false -> lstrip (String c t) = String c t.
Proof. intros H. simpl. by rewrite H. Qed.

Lemma rstrip_cons c t : is_space c = false -> rstrip (String c t) = String c (rstrip t).
Proof. intros H. simpl. rewrite H. by destruct (rstrip t). Qed.

Lemma rstrip_blank r : all_chars is_space r = true -> rstrip r = "".
Proof.
  induction r as [|x r IH]; simpl; [done|]. intros [Hx Hr]%andb_prop.
  by rewrite IH, Hx.
Qed.

Lemma rstrip_app_blank u r : all_chars is_space r = true -> rstrip (u +:+ r) = rstrip u.
Proof.
  intros Hr. induction u as [|c u IH].
  - rewrite app_empty_l. by apply rstrip_blank.
  - rewrite ?app_cons. simpl. by rewrite IH.
Qed.

Lemma rstrip_last s t x : rstrip s = t +:+ String x "" -> is_space x = false.
Proof.
  revert t. induction s as [|c s IH]; intros t; simpl.
  - intros H. symmetry in H. by apply app_is_empty in H as [_ ?].
  - destruct (rstrip s) as [|a r0] eqn:E.
    + destruct (is_space c) eqn:Ec.
      * intros H. symmetry in H. by apply app_is_empty in H as [_ ?].
      * destruct t as [|y t]; [by intros [= <-]|]. rewrite app_cons.
        intros [= _ H]. symmetry in H. by apply app_is_empty in H as [_ ?].
    + destruct t as [|y t]; [done|]. rewrite app_cons. intros [= _ H].
      by apply (IH t).
Qed.

Lemma rstrip_fix u :
  (forall t x, u = t +:+ String x "" -> is_space x = false) -> rstrip u = u.
Proof.
  induction u as [|c u IH]; intros H; [done|]. simpl.
  destruct u as [|a u].
  - simpl. by rewrite (H "" c).
  - rewrite IH; [done|]. intros t x Ht. apply (H (String c t) x).
    by rewrite ?app_cons, Ht.
Qed.

Lemma strip_head s c t : strip s = String c t -> is_space c = false.
Proof.
  unfold strip. destruct (lstrip s) as [|x u] eqn:E; [done|].
  apply lstrip_head in E. rewrite rstrip_cons by done. by intros [= <- _].
Qed.

Lemma strip_last s t x : strip s = t +:+ String x "" -> is_space x = false.
Proof. apply rstrip_last. Qed.

(** White space around a trimmed text is what [strip] removes. *)
Lemma strip_between l body r :
  all_chars is_space l = true -> all_chars is_space r = true ->
  strip body = body -> strip (l +:+ body +:+ r) = body.
Proof.
  intros Hl Hr Hb. unfold strip. rewrite lstrip_blank_app by done.
  destruct body as [|c t].
  - rewrite app_empty_l.
    destruct (lstrip r) as [|x u] eqn:E; [done|].
    assert (exists l', r = l' +:+ lstrip r /\ all_chars is_space l' = true) as (l' & Hr' & _).
    { clear. induction r as [|y r (l' & IH & Hl')]; simpl; [by exists ""|].
      destruct (is_space y) eqn:Ey.
      - exists (String y l'). simpl. by rewrite Ey, Hl', app_cons, <- IH.
      - by exists "". }
    rewrite Hr', all_chars_app, E in Hr. simpl in Hr.
    apply lstrip_head in E. rewrite E in Hr. simpl in Hr.
    by rewrite andb_false_r in Hr.
  - pose proof (strip_head _ _ _ Hb) as Hc. rewrite ?app_cons, lstrip_fix by done.
    rewrite <- app_cons, rstrip_app_blank by done.
    unfold strip in Hb. by rewrite lstrip_fix in Hb.
Qed.

Lemma str_last s : s <> "" -> exists s0 x, s = s0 +:+ String x "".
Proof.
  induction s as [|c s IH]; [done|]. intros _. destruct s as [|a s].
  - by exists "", c.
  - destruct IH as (s0 & x & ->); [done|]. by exists (String c s0), x.
Qed.

Lemma all_chars_last p s x : all_chars p (s +:+ String x "") = true -> p x = true.
Proof. rewrite all_chars_app. simpl. by intros [_ [? _]%andb_prop]%andb_prop. Qed.

(* ===================================================================== *)
(** * The operator rule *)
(* ===================================================================== *)

Lemma space_lower c : is_space c = true -> to_lower c = c.
Proof. destruct c as [[] [] [] [] [] [] [] []]; vm_compute; congruence. Qed.

(** A text equal up to case to a word without white space has none. *)
Lemma ci_eq_no_space a w u z v :
  ci_eq a w -> all_chars (fun c => negb (is_space c)) (lower w) = true ->
  a = u +:+ String z v -> is_space z = false.
Proof.
  unfold ci_eq. intros Ha Hw ->. rewrite <- Ha, lower_app, all_chars_app in Hw.
  simpl in Hw. apply andb_prop in Hw as [_ [Hz _]%andb_prop].
  destruct (is_space z) eqn:E; [|done]. by rewrite (space_lower z E), E in Hz.
Qed.

Lemma all_chars_ext p q s : (forall c, p c = q c) -> all_chars p s = all_chars q s.
Proof. intros H. induction s as [|c s IH]; [done|]. simpl. by rewrite H, IH. Qed.

Lemma den_word f w s g g' : Den f (Word w) s g g' -> lit_prefix f w s = Some "" /\ g' = g.
Proof.
  revert s g'. induction w as [|c w IH]; intros s g'.
  - by intros [-> ->]%den_eps_inv.
  - destruct w as [|c' w].
    + intros (x & -> & Hx & ->)%den_one_inv. cbn [lit_prefix]. by rewrite Hx.
    + change (Word (String c (String c' w)))
        with (Cat (One (Lit c)) (Word (String c' w))).
      intros (s1 & s2 & g1 & -> & (x & -> & Hx & ->)%den_one_inv & [H ->]%IH)%den_cat_inv.
      rewrite app_cons, app_empty_l. cbn [lit_prefix]. by rewrite Hx.
Qed.

Lemma lit_prefix_here f w h rest :
  ignorecase f = true -> ci_eq h w -> lit_prefix f w (h +:+ rest) = Some rest.
Proof. intros Hf Hh. apply lit_prefix_ci; eauto. Qed.

(** Where the tail of the operator rule, white space and then "API", cannot
    start: inside a trimmed body that holds no such stop. *)
Lemma no_stop_inside body b1 b2 gap' tail w a s2 :
  body = b1 +:+ b2 -> b2 <> "" -> strip body = body -> no_api_inside body ->
  blank gap' -> gap' <> "" ->
  blank w -> w <> "" -> ci_eq a "API" ->
  b2 +:+ gap' +:+ tail = w +:+ a +:+ s2 -> False.
Proof.
  intros -> Hb2 Hstrip Hno Hgap Hgap' Hw Hw' Ha Heq.
  destruct (str_last b2 Hb2) as (b20 & x & ->).
  assert (is_space x = false) as Hx.
  { apply (strip_last (b1 +:+ b20 +:+ String x "") (b1 +:+ b20) x).
    by rewrite Hstrip, !app_assoc_str. }
  destruct (str_last w Hw') as (w0 & y & ->).
  assert (is_space y = true) as Hy by (by apply all_chars_last in Hw).
  apply app_eq_app_str in Heq as [(u & Hu & _)|(u & Hu & Heq)].
  - (* the body's rest lies inside the white space *)
    unfold blank in Hw. rewrite Hu, all_chars_app in Hw.
    apply andb_prop in Hw as [Hw _]. apply all_chars_last in Hw. congruence.
  - apply app_eq_app_str in Heq as [(v & Hv & _)|(v & Hv & Heq)].
    + (* white space and API both lie inside the body *)
      apply (Hno (b1 +:+ w0) y a v); [|done|done].
      rewrite Hu, Hv. by rewrite !app_assoc_str.
    + destruct v as [|z v].
      * rewrite app_empty_r in Hv. subst u.
        apply (Hno (b1 +:+ w0) y a ""); [|done|done].
        rewrite Hu. by rewrite !app_assoc_str, ?app_empty_r.
      * (* API would run into the white space before the real API *)
        destruct gap' as [|g0 gap']; [done|]. rewrite !app_cons in Heq.
        injection Heq as <- _. simpl in Hgap. apply andb_prop in Hgap as [Hg0 _].
        assert (is_space g0 = false); [|congruence].
        by eapply (ci_eq_no_space a "API" u g0 v).
Qed.

Lemma operator_match label gap body gap' api rest :
  ci_eq label "Operator:" -> ci_eq api "API" ->
  blank gap -> blank gap' -> gap' <> "" ->
  body <> "" -> strip body = body -> one_line body -> no_api_inside body ->
  exists m,
    re_match IGNORECASE operator_pattern
      (label +:+ gap +:+ body +:+ gap' +:+ api +:+ rest) = Some m
    /\ group m 1 = Some body.
Proof.
  intros Hlabel Hapi Hgap Hgap' Hne' Hne Hstrip Hline Hno.
  exists {| m_groups := [(1, body)]; m_rest := rest |}. split; [|done].
  unfold re_match, operator_pattern, spaces0, spaces, Plus.
  cbn [cat_all rmatch].
  rewrite rmatch_word, lit_prefix_here by done.
  destruct body as [|c0 t]; [done|].
  pose proof (strip_head _ _ _ Hstrip) as Hc0.
  apply star_greedy_run; [done| |].
  { rewrite app_cons. by intros c rest' [= <- _]. }
  rewrite app_cons.
  unfold one_line in Hline. simpl in Hline. apply andb_prop in Hline as [Hc0' Ht].
  assert (accepts IGNORECASE Dot c0 = true) as -> by done.
  apply star_lazy_first.
  - by rewrite (all_chars_ext _ not_newline).
  - intros b1 b2 -> Hb2.
    match goal with |- ?k = None => destruct k as [r|] eqn:Hk; [|done] end.
    exfalso.
    destruct (b2 +:+ gap' +:+ api +:+ rest) as [|x s'] eqn:Heq; [done|].
    destruct (accepts IGNORECASE (Cls is_space) x) eqn:Hx; [|done].
    apply star_greedy_sound in Hk as (w' & s'' & -> & Hw' & Hk).
    rewrite rmatch_word in Hk.
    destruct (lit_prefix IGNORECASE "API" s'') as [s2|] eqn:Hlit; [|done].
    apply lit_prefix_ci in Hlit as (a & -> & Ha); [|done].
    eapply (no_stop_inside (String c0 (b1 +:+ b2)) (String c0 b1) b2 gap'
              (api +:+ rest) (String x w') a s2); try done.
    rewrite (all_chars_ext _ is_space) in Hw' by done.
    simpl in Hx. unfold blank. simpl. by rewrite Hx, Hw'.
  - rewrite <- app_cons, consumed_app.
    destruct gap' as [|g0 gap1]; [done|]. rewrite app_cons.
    unfold blank in Hgap'. simpl in Hgap'. apply andb_prop in Hgap' as [Hg0 Hgap1].
    assert (accepts IGNORECASE (Cls is_space) g0 = true) as -> by done.
    apply star_greedy_run; [done| |].
    { intros c rest' Heq. destruct api as [|a0 api']; [done|]. rewrite app_cons in Heq.
      injection Heq as <- _. by apply (ci_eq_no_space (String a0 api') "API" "" a0 api'). }
    by rewrite rmatch_word, lit_prefix_here.
Qed.

Lemma api_after_space_spec body : api_after_space body = false -> no_api_inside body.
Proof.
  intros H b1 x a b2 -> Hx Ha. revert H. induction b1 as [|c b1 IH].
  - rewrite app_empty_l, app_cons. simpl. rewrite Hx, lower_app, Ha. done.
  - rewrite app_cons. simpl. intros [_ H]%orb_false_elim. auto.
Qed.

Lemma rule_result_other section (d : record) rule k :
  rule.2 ≠ k -> rule_result section d rule !! k = d !! k.
Proof.
  intros Hk. unfold rule_result. case_match; [|done]. by rewrite lookup_insert_ne.
Qed.

Lemma well_result_operator section :
  well_result section !! "operator"
  = Some (match re_search IGNORECASE operator_pattern section with
          | Some m => strip <$> group m 1
          | None => None
          end).
Proof.
  unfold well_result, well_rules. cbn [foldl].
  rewrite !rule_result_other by done.
  unfold rule_result. cbn [fst snd]. case_match; [|done].
  by rewrite lookup_insert_eq.
Qed.

(** C9, as the code has it: when the first "Operator:" label is followed by
    white space, a trimmed text [body] on one line, white space and "API",
    and no white space inside [body] is followed at once by "API", the
    operator field is [body], the trimmed text between label and token;
    nothing after the token, such as the API number on the same line, is
    part of it. Labels and token are matched up to case. *)
Theorem operator_is_text_before_api
    (text section pre label gap body gap' api rest : string) :
  section_text text = Ok section ->
  section = pre +:+ label +:+ gap +:+ body +:+ gap' +:+ api +:+ rest ->
  ci_eq label "Operator:" -> ci_eq api "API" ->
  (forall pre' h' post',
      section = pre' +:+ h' +:+ post' -> ci_eq h' "Operator:" ->
      String.length pre <= String.length pre') ->
  blank gap -> blank gap' -> gap' <> "" ->
  body <> "" -> strip body = body -> one_line body ->
  api_after_space body = false ->
  exists well : record,
    parse_well_info text = Ok well
    /\ well !! "operator" = Some (Some body)
    /\ strip (gap +:+ body +:+ gap') = body.
Proof.
  intros Hsec -> Hlabel Hapi Hfirst Hgap Hgap' Hne' Hne Hstrip Hline Hno.
  rewrite section_text_ok in Hsec. injection Hsec as Hsec.
  exists (well_result (section_result text)). split_and!.
  - apply parse_well_info_ok.
  - rewrite Hsec, well_result_operator. f_equal.
    destruct (operator_match label gap body gap' api rest) as (m & Hm & Hg);
      auto using api_after_space_spec.
    rewrite re_search_skip.
    + rewrite (re_search_here _ _ _ _ Hm), Hg. simpl. by rewrite Hstrip.
    + intros p1 p2 -> Hp2.
      unfold re_match, operator_pattern. cbn [cat_all rmatch]. rewrite rmatch_word.
      destruct (lit_prefix _ _ _) as [t|] eqn:Hlit; [|done]. exfalso.
      apply lit_prefix_ci in Hlit as (h & Hh & Hci); [|done].
      specialize (Hfirst p1 h t). rewrite length_app_str in Hfirst.
      assert (String.length p2 <> 0) by (by destruct p2).
      assert (String.length p1 + String.length p2 <= String.length p1); [|lia].
      apply Hfirst; [|done]. by rewrite app_assoc_str, Hh.
  - by apply strip_between.
Qed.

Lemma operator_is_text_before_api_witness :
  exists well : record,
    parse_well_info operator_line = Ok well
    /\ well !! "operator" = Some (Some "Oasis Petroleum")
    /\ strip (" " +:+ "Oasis Petroleum" +:+ "  ") = "Oasis Petroleum".
Proof.
  apply (operator_is_text_before_api operator_line operator_line
           "" "Operator:" " " "Oasis Petroleum" "  " "API"
           (" #: 33-053-06057" +:+ newline +:+ "Well Name: Chalmers 5300"));
    try reflexivity; try done.
  intros pre' h' post' _ _. simpl. lia.
Defined.

(** C9 as the specification states it fails when the text between the
    label and "API" runs over a line end: the dot of the pattern stops at the line feed,
    and the operator stays unset although "Operator:" is followed by
    "API". *)
Lemma operator_unset_across_lines :
  section_text operator_two_lines = Ok operator_two_lines
  /\ operator_two_lines
     = "Operator:" +:+ (" Oasis" +:+ newline +:+ "Petroleum ") +:+ "API" +:+ " #: 33-053-06057"
  /\ strip (" Oasis" +:+ newline +:+ "Petroleum ") = "Oasis" +:+ newline +:+ "Petroleum"
  /\ (well ← parse_well_info operator_two_lines; getitem well "operator") = Ok None.
Proof. split_and!; vm_compute; reflexivity. Qed.

(* ===================================================================== *)
(** * Date normalization *)
(* ===================================================================== *)







Section StrptimePattern.
Context {R : Type}.
Variables (k : string -> groups -> option R).
Hypothesis k_digit : forall c s g, is_digit c = true -> k (String c s) g = None.


End StrptimePattern.


















(* ===================================================================== *)
(** * The positional grammars of the two data lines *)
(* ===================================================================== *)

Ltac den_invert :=
  repeat match goal with
  | H : Den _ (Plus _ _) _ _ _ |- _ =>
      apply den_plus_inv in H as (? & ? & ->)
  | H : Den _ (Cat _ _) _ _ _ |- _ =>
      let s1 := fresh "s" in let s2 := fresh "s" in
      apply den_cat_inv in H as (s1 & s2 & ? & -> & ? & ?)
  | H : Den _ (Grp _ _) _ _ _ |- _ =>
      apply den_grp_inv in H as (? & ? & ->)
  | H : Den _ (One _) _ _ _ |- _ =>
      apply den_one_inv in H as (? & -> & ? & ->)
  | H : Den _ (Star _ _) _ _ _ |- _ =>
      apply den_star_inv in H as (? & ->)
  end.












Lemma fields_agree_trans keys (a b c : record) :
  fields_agree keys a b -> fields_agree keys b c -> fields_agree keys a c.
Proof. intros H1 H2 k Hk. by rewrite H1, H2. Qed.


Lemma disjoint_keys k : k ∈ treatment_keys -> (k ∉ date_keys) /\ (k ≠ "proppant_details").
Proof.
  unfold treatment_keys. intros Hk.
  repeat (apply elem_of_cons in Hk as [->|Hk]; [split; [not_in_keys|done]|]).
  by apply elem_of_nil in Hk.
Qed.

Ltac lookup_inserts :=
  repeat (rewrite lookup_insert_eq || rewrite lookup_insert_ne by done).



Lemma scan_result_skip lines pre rest : forall i (d : record),
  no_details pre ->
  scan_result lines i (pre ++ rest) d
  = scan_result lines (i + length pre) rest (markers_fold lines i pre d).
Proof.
  induction pre as [|x pre IH]; intros i d Hpre; simpl.
  - by rewrite Nat.add_0_r.
  - apply Forall_cons in Hpre as [Hx Hpre]. rewrite Hx, IH by done.
    by replace (S i + length pre) with (i + S (length pre)) by lia.
Qed.














Lemma disjoint_date_keys k :
  k ∈ date_keys -> (k ∉ treatment_keys) /\ (k ≠ "proppant_details").
Proof.
  unfold date_keys. intros Hk.
  repeat (apply elem_of_cons in Hk as [->|Hk]; [split; [not_in_keys|done]|]).
  by apply elem_of_nil in Hk.
Qed.











(* ===================================================================== *)
(** * The date of a data line *)
(* ===================================================================== *)





(* ===================================================================== *)
(** * Further properties of the two parsers *)
(* ===================================================================== *)

Lemma lstrip_decompose s : exists l, s = l +:+ lstrip s /\ blank l.
Proof.
  unfold blank. induction s as [|y s (l & IH & Hl)]; simpl; [by exists ""|].
  destruct (is_space y) eqn:Ey.
  - exists (String y l). simpl. by rewrite Ey, Hl, app_cons, <- IH.
  - by exists "".
Qed.

Lemma rstrip_decompose s : exists r, s = rstrip s +:+ r /\ blank r.
Proof.
  unfold blank. induction s as [|y s (r & IH & Hr)]; simpl; [by exists ""|].
  destruct (rstrip s) as [|a u] eqn:E.
  - rewrite app_empty_l in IH. subst r. destruct (is_space y) eqn:Ey.
    + exists (String y s). simpl. by rewrite Ey, Hr.
    + exists s. by rewrite app_cons, app_empty_l.
  - exists r. split; [|done]. rewrite app_cons. f_equal. exact IH.
Qed.

(** [strip] removes a blank text on the left and one on the right. *)
Lemma strip_decompose s : exists l r, s = l +:+ strip s +:+ r /\ blank l /\ blank r.
Proof.
  destruct (lstrip_decompose s) as (l & Hs & Hl).
  destruct (rstrip_decompose (lstrip s)) as (r & Hu & Hr).
  exists l, r. unfold strip. by rewrite <- Hu.
Qed.

Lemma all_chars_strip p s : all_chars p s = true -> all_chars p (strip s) = true.
Proof.
  destruct (strip_decompose s) as (l & r & Hs & _). intros H.
  rewrite Hs, !all_chars_app in H.
  by apply andb_prop in H as [_ [? _]%andb_prop].
Qed.

Lemma strip_idem s : strip (strip s) = strip s.
Proof.
  unfold strip at 1. destruct (strip s) as [|c t] eqn:E; [done|].
  rewrite lstrip_fix by (by eapply strip_head).
  apply rstrip_fix. intros t' x Hx. apply (strip_last s t' x). by rewrite E.
Qed.

(** A text without white space is trimmed. *)
Lemma strip_no_space s :
  all_chars (fun c => negb (is_space c)) s = true -> strip s = s.
Proof.
  intros H. unfold strip. destruct s as [|c t]; [done|].
  simpl in H. apply andb_prop in H as [Hc Ht]. apply negb_true_iff in Hc.
  rewrite lstrip_fix by done. apply rstrip_fix. intros t' x Hx.
  assert (all_chars (fun c => negb (is_space c)) (String c t) = true) as Hall.
  { simpl. by rewrite Hc, Ht. }
  rewrite Hx in Hall. apply all_chars_last in Hall. by apply negb_true_iff.
Qed.

Lemma all_chars_impl (p q : ascii -> bool) s :
  (forall c, p c = true -> q c = true) -> all_chars p s = true -> all_chars q s = true.
Proof.
  intros H. induction s as [|c s IH]; [done|]. simpl.
  intros [Hc Hs]%andb_prop. by rewrite (H c Hc), IH.
Qed.

Lemma digit_or_hyphen_plain c :
  digit_or_hyphen c = true -> negb (is_space c) = true /\ not_newline c = true.
Proof. destruct c as [[] [] [] [] [] [] [] []]; vm_compute; intuition congruence. Qed.

(** Each field of the well record is what its own rule finds. *)
Lemma well_result_lookup section rule :
  rule ∈ well_rules ->
  well_result section !! rule.2
  = Some (match re_search IGNORECASE rule.1 section with
          | Some m => strip <$> group m 1
          | None => None
          end).
Proof.
  unfold well_rules. intros H.
  repeat (apply elem_of_cons in H as [->|H];
    [unfold well_result, well_rules; cbn [foldl fst snd];
     repeat (rewrite rule_result_other by done);
     unfold rule_result at 1; cbn [fst snd];
     destruct (re_search IGNORECASE _ section);
       [by rewrite lookup_insert_eq
       |repeat (rewrite rule_result_other by done); reflexivity]|]).
  by apply elem_of_nil in H.
Qed.

Ltac den_words :=
  repeat match goal with
  | H : Den _ (Word _) _ _ _ |- _ => apply den_word in H as [_ ->]
  end.

(** Group 1 of each well rule holds a text that is not empty and has no
    line feed. *)
Lemma well_rule_group rule s g :
  rule ∈ well_rules -> Den IGNORECASE rule.1 s [] g ->
  exists v, lookup_group g 1 = Some v /\ v <> "" /\ one_line v.
Proof.
  unfold well_rules. intros H.
  repeat (apply elem_of_cons in H as [->|H];
    [cbn [fst];
     unfold operator_pattern, api_pattern, well_name_pattern, enseco_job_pattern,
       job_type_pattern, county_state_pattern, shl_pattern, latitude_pattern,
       longitude_pattern, datum_pattern, spaces0, spaces, to_eol;
     cbn [cat_all]; intros D; den_invert; den_words; den_invert; den_words;
     eexists; split; [reflexivity|split; [done|]]|]).
  all: try (by apply elem_of_nil in H).
  all: unfold one_line.
  all: try done.
  - eapply all_chars_impl; [|eassumption]. intros c Hc. apply digit_or_hyphen_plain, Hc.
Qed.

Lemma well_key_rule key :
  key ∈ well_keys -> exists rule, rule ∈ well_rules /\ rule.2 = key.
Proof.
  change well_keys with (snd <$> well_rules).
  intros (rule & -> & Hr)%list_elem_of_fmap. eauto.
Qed.

Lemma well_result_field section key v :
  well_result section !! key = Some (Some v) ->
  exists rule m v0,
    rule ∈ well_rules /\ rule.2 = key
    /\ re_search IGNORECASE rule.1 section = Some m
    /\ group m 1 = Some v0 /\ v = strip v0.
Proof.
  intros Hv.
  assert (key ∈ well_keys) as Hk.
  { assert (key ∈ dom (well_result section)) as Hd
      by (apply elem_of_dom; by rewrite Hv).
    rewrite (well_result_shape section) in Hd. by apply elem_of_list_to_set in Hd. }
  destruct (well_key_rule key Hk) as (rule & Hr & <-).
  rewrite (well_result_lookup section rule Hr) in Hv.
  destruct (re_search IGNORECASE rule.1 section) as [m|] eqn:Hm; [|done].
  destruct (group m 1) as [v0|] eqn:Hg; [|done].
  injection Hv as <-. by exists rule, m, v0.
Qed.

(** X4: every field of the well record that is set holds a trimmed text
    without line feed. *)
Theorem well_fields_trimmed_single_line (text : string) :
  exists well : record,
    parse_well_info text = Ok well
    /\ forall key v, well !! key = Some (Some v) -> trimmed v /\ one_line v.
Proof.
  exists (well_result (section_result text)). split; [apply parse_well_info_ok|].
  intros key v (rule & m & v0 & Hr & _ & Hm & Hg & ->)%well_result_field.
  split; [apply strip_idem|].
  apply re_search_found in Hm as (pre & s' & _ & Hm).
  apply re_match_sound in Hm as (s1 & _ & D).
  destruct (well_rule_group rule s1 _ Hr D) as (v1 & Hv1 & _ & Hline).
  unfold group in Hg. rewrite Hg in Hv1. injection Hv1 as <-.
  by apply all_chars_strip.
Qed.

(** X3: the API number, when set, is a text of digits and hyphens that is
    not empty. *)
Theorem api_number_digits_and_hyphens (text : string) :
  exists well : record,
    parse_well_info text = Ok well
    /\ (well !! "api_number" = Some None
        \/ exists v, well !! "api_number" = Some (Some v)
                     /\ v <> "" /\ all_chars digit_or_hyphen v = true).
Proof.
  exists (well_result (section_result text)). split; [apply parse_well_info_ok|].
  rewrite (well_result_lookup _ (api_pattern, "api_number"))
    by (unfold well_rules; repeat constructor).
  cbn [fst]. destruct (re_search _ _ _) as [m|] eqn:Hm; [|by left]. right.
  apply re_search_found in Hm as (pre & s' & _ & Hm).
  apply re_match_sound in Hm as (s1 & _ & D).
  unfold api_pattern, spaces0 in D. cbn [cat_all] in D.
  unfold group. den_invert. den_words.
  cbn [lookup_group Nat.eqb fmap option_fmap option_map].
  eexists. split; [reflexivity|].
  rewrite strip_no_space; [by split|].
  eapply all_chars_impl; [|eassumption]. intros c Hc. apply digit_or_hyphen_plain, Hc.
Qed.

Lemma line_rule_assoc ws pat key s :
  (ws, pat, key) ∈ line_rules ->
  re_match IGNORECASE pat s
  = re_match IGNORECASE (Cat (label_pattern ws) (Cat spaces0 (Grp 1 to_eol))) s.
Proof.
  unfold line_rules. intros H.
  repeat (apply elem_of_cons in H as [[= -> -> ->]|H]; [reflexivity|]).
  by apply elem_of_nil in H.
Qed.

Lemma starts_plain_spec w h :
  starts_plain w = true -> ci_eq h w -> exists c t, h = String c t /\ is_space c = false.
Proof.
  unfold starts_plain, ci_eq. intros Hw Hh. rewrite <- Hh in Hw.
  destruct h as [|c t]; [done|]. exists c, t. split; [done|].
  simpl in Hw. destruct (is_space c) eqn:E; [|done].
  by rewrite (space_lower c E), E in Hw.
Qed.

Lemma reads_label_head ws h :
  reads_label ws h -> Forall (fun w => starts_plain w = true) ws ->
  exists c t, h = String c t /\ is_space c = false.
Proof.
  intros [w h' Hh|w ws' h' gap t Hh _ _ _] [Hw _]%Forall_cons.
  - by eapply starts_plain_spec.
  - destruct (starts_plain_spec w h' Hw Hh) as (c & t' & -> & Hc).
    exists c, (t' +:+ gap +:+ t). by rewrite !app_cons.
Qed.

(** What the pattern of a label matches reads the label. *)
Lemma den_label ws h g g' :
  ws <> [] -> Den IGNORECASE (label_pattern ws) h g g' -> reads_label ws h /\ g' = g.
Proof.
  revert h g'. induction ws as [|w ws IH]; intros h g' Hne; [done|].
  destruct ws as [|w' ws].
  - intros [Hl ->]%den_word. split; [|done]. constructor.
    apply lit_prefix_ci in Hl as (h' & -> & Hh); [|done]. by rewrite app_empty_r.
  - change (label_pattern (w :: w' :: ws))
      with (Cat (Word w) (Cat spaces0 (label_pattern (w' :: ws)))).
    intros (s1 & s2 & g1 & -> & [Hl ->]%den_word & D)%den_cat_inv.
    apply den_cat_inv in D as (s3 & s4 & g2 & -> & [Hs ->]%den_star_inv & D).
    apply IH in D as [D ->]; [|done]. split; [|done].
    apply lit_prefix_ci in Hl as (h' & -> & Hh); [|done]. rewrite app_empty_r.
    by constructor.
Qed.

(** At a reading of the label, the pattern of the label hands over to what
    follows it. *)
Lemma rmatch_label {R} ws h rest g (k : string -> groups -> option R) r :
  reads_label ws h -> Forall (fun w => starts_plain w = true) ws ->
  k rest g = Some r ->
  rmatch IGNORECASE (label_pattern ws) (h +:+ rest) g k = Some r.
Proof.
  intros Hr. revert rest k. induction Hr as [w h Hh|w ws h gap t Hh Hgap Hne Ht IH];
    intros rest k Hws Hk.
  - cbn [label_pattern]. by rewrite rmatch_word, lit_prefix_here.
  - destruct ws as [|w' ws]; [done|].
    change (label_pattern (w :: w' :: ws))
      with (Cat (Word w) (Cat spaces0 (label_pattern (w' :: ws)))).
    apply Forall_cons in Hws as [_ Hws].
    rewrite !app_assoc_str. cbn [rmatch]. rewrite rmatch_word, lit_prefix_here by done.
    apply star_greedy_run; [done| |by apply IH].
    destruct (reads_label_head _ _ Ht Hws) as (c & t' & -> & Hc).
    rewrite app_cons. by intros c' rest' [= <- _].
Qed.

(** The rest of the line after a label: white space, then a text that
    starts with a visible character and runs to the end of its line. *)
Lemma rmatch_to_eol gap value rest :
  blank gap -> value <> "" -> lstrip value = value -> one_line value ->
  (rest = "" \/ exists r, rest = newline +:+ r) ->
  rmatch IGNORECASE (Cat spaces0 (Grp 1 to_eol)) (gap +:+ value +:+ rest) []
    (fun s' g' => Some {| m_groups := g'; m_rest := s' |})
  = Some {| m_groups := [(1, value)]; m_rest := rest |}.
Proof.
  intros Hgap Hne Hl Hline Hrest. unfold spaces0, to_eol, Plus. cbn [rmatch].
  destruct value as [|c v]; [done|].
  assert (is_space c = false) as Hc by (by eapply lstrip_head).
  apply star_greedy_run; [done| |].
  { rewrite app_cons. by intros c' rest' [= <- _]. }
  unfold one_line in Hline. simpl in Hline. apply andb_prop in Hline as [Hc' Hv].
  rewrite app_cons. assert (accepts IGNORECASE (Cls not_newline) c = true) as -> by done.
  apply star_greedy_run; [done| |].
  { intros c' rest' ->. destruct Hrest as [?|(r & [= -> _])]; done. }
  by rewrite <- app_cons, consumed_app.
Qed.

Lemma line_rule_well_rule ws pat key :
  (ws, pat, key) ∈ line_rules ->
  (pat, key) ∈ well_rules /\ ws <> [] /\ Forall (fun w => starts_plain w = true) ws.
Proof.
  unfold line_rules, well_rules. intros H.
  repeat (apply elem_of_cons in H as [[= -> -> ->]|H];
          [split_and!; [repeat constructor|done|repeat constructor]|]).
  by apply elem_of_nil in H.
Qed.

(** What a line rule finds where its label is read for the first time. *)
Lemma line_rule_search ws pat key pre label gap value rest :
  (ws, pat, key) ∈ line_rules ->
  reads_label ws label ->
  (forall pre' h' post',
      pre +:+ label +:+ gap +:+ value +:+ rest = pre' +:+ h' +:+ post' ->
      reads_label ws h' -> String.length pre <= String.length pre') ->
  blank gap -> value <> "" -> lstrip value = value -> one_line value ->
  (rest = "" \/ exists r, rest = newline +:+ r) ->
  re_search IGNORECASE pat (pre +:+ label +:+ gap +:+ value +:+ rest)
  = Some {| m_groups := [(1, value)]; m_rest := rest |}.
Proof.
  intros Hin Hlabel Hfirst Hgap Hne Hl Hline Hrest.
  destruct (line_rule_well_rule _ _ _ Hin) as (_ & Hws & Hplain).
  rewrite re_search_skip.
  - apply re_search_here. rewrite (line_rule_assoc ws pat key) by done.
    unfold re_match. cbn [rmatch]. apply rmatch_label; [done|done|].
    by apply rmatch_to_eol.
  - intros p1 p2 -> Hp2.
    destruct (re_match IGNORECASE pat _) as [m|] eqn:Hm; [|done]. exfalso.
    rewrite (line_rule_assoc ws pat key) in Hm by done.
    apply re_match_sound in Hm as (s1 & Hs & D).
    apply den_cat_inv in D as (h' & s2 & g1 & -> & D & _).
    apply den_label in D as [D _]; [|done].
    specialize (Hfirst p1 h' (s2 +:+ m_rest m)).
    rewrite length_app_str in Hfirst.
    assert (String.length p2 <> 0) by (by destruct p2).
    assert (String.length p1 + String.length p2 <= String.length p1); [|lia].
    apply Hfirst; [|done]. rewrite !app_assoc_str in *. by rewrite Hs.
Qed.

(** X1: where the label of a line rule is read for the first time, followed
    by white space and then a text that starts with a visible character and
    runs to the end of its line, the field is that text without the white
    space at its end. White space includes line ends: the text may stand on
    a later line than the label. *)
Theorem labeled_field_is_rest_of_line
    (text section pre label gap value rest : string)
    (ws : list string) (pat : regex) (key : string) :
  (ws, pat, key) ∈ line_rules ->
  section_text text = Ok section ->
  section = pre +:+ label +:+ gap +:+ value +:+ rest ->
  reads_label ws label ->
  (forall pre' h' post',
      section = pre' +:+ h' +:+ post' -> reads_label ws h' ->
      String.length pre <= String.length pre') ->
  blank gap -> value <> "" -> lstrip value = value -> one_line value ->
  (rest = "" \/ exists r, rest = newline +:+ r) ->
  exists well : record,
    parse_well_info text = Ok well
    /\ well !! key = Some (Some (strip value)).
Proof.
  intros Hin Hsec -> Hlabel Hfirst Hgap Hne Hl Hline Hrest.
  rewrite section_text_ok in Hsec. injection Hsec as Hsec.
  exists (well_result (section_result text)). split; [apply parse_well_info_ok|].
  destruct (line_rule_well_rule _ _ _ Hin) as (Hrule & _ & _).
  rewrite (well_result_lookup _ (pat, key) Hrule), Hsec. cbn [fst].
  by rewrite (line_rule_search ws pat key).
Qed.

Lemma labeled_field_is_rest_of_line_witness :
  exists well : record,
    parse_well_info name_on_next_line = Ok well
    /\ well !! "well_name" = Some (Some "Chalmers 5300 21-19").
Proof.
  apply (labeled_field_is_rest_of_line name_on_next_line name_on_next_line
           "" "WELL NAME:" (newline +:+ "  ") "Chalmers 5300 21-19  "
           (newline +:+ "Datum: NAD83") ["Well Name:"] well_name_pattern "well_name").
  - unfold line_rules. repeat constructor.
  - reflexivity.
  - reflexivity.
  - constructor. reflexivity.
  - intros pre' h' post' _ _. simpl. lia.
  - reflexivity.
  - done.
  - reflexivity.
  - reflexivity.
  - right. by eexists.
Defined.

Lemma word_offsets_spec w pre h post i :
  ci_eq h w -> i + String.length pre ∈ word_offsets w (pre +:+ h +:+ post) i.
Proof.
  intros Hh. revert i. induction pre as [|c pre IH]; intros i.
  - rewrite app_empty_l. simpl String.length. rewrite Nat.add_0_r.
    assert (lit_prefix IGNORECASE w (h +:+ post) = Some post) as Hl
      by (by apply lit_prefix_here).
    destruct (h +:+ post) eqn:E; cbn [word_offsets]; rewrite Hl;
      apply elem_of_app; left; by left.
  - rewrite app_cons. cbn [word_offsets]. apply elem_of_app. right.
    simpl String.length. replace (i + S (String.length pre)) with (S i + String.length pre) by lia.
    apply IH.
Qed.

Lemma blank_strip v : blank v -> strip v = "".
Proof.
  intros Hv. unfold strip. rewrite <- (app_empty_r v), lstrip_blank_app by done. done.
Qed.

(** White space to the end of the text after a label: the greedy [\s*]
    gives back its last character that is no line feed, and the rest of
    the line is that single character. With line feeds only there is no
    match. *)
Lemma rmatch_blank_tail tail g :
  blank tail ->
  match rmatch IGNORECASE (Cat spaces0 (Grp 1 to_eol)) tail g
          (fun s' g' => Some {| m_groups := g'; m_rest := s' |}) with
  | Some m => line_feeds tail = false
              /\ exists v, m_groups m = (1, v) :: g /\ blank v
  | None => line_feeds tail = true
  end.
Proof.
  unfold spaces0, to_eol, Plus, line_feeds. cbn [rmatch].
  induction tail as [|c t IH]; [done|]. intros Hb. unfold blank in Hb.
  simpl in Hb. apply andb_prop in Hb as [Hc Ht]. specialize (IH Ht).
  cbn [star_greedy all_chars].
  change (accepts IGNORECASE (Cls is_space) c) with (is_space c). rewrite Hc.
  destruct (star_greedy IGNORECASE (Cls is_space) t g _) as [m|] eqn:E.
  - destruct IH as [IH1 IH2]. split; [|done]. by rewrite IH1, andb_false_r.
  - rewrite IH, andb_true_r.
    change (accepts IGNORECASE (Cls not_newline) c) with (negb (Ascii.eqb c LF)).
    rewrite (Ascii.eqb_sym LF c).
    destruct (Ascii.eqb c LF) eqn:Ec; [done|]. cbn [negb].
    assert (forall k : string -> groups -> option Match,
              star_greedy IGNORECASE (Cls not_newline) t g k = k t g) as Hstop.
    { intros k. clear -IH. destruct t as [|x t]; [done|].
      cbn [all_chars] in IH. apply andb_prop in IH as [Hx _].
      apply Ascii.eqb_eq in Hx as <-. done. }
    rewrite Hstop. split; [done|]. eexists. split; [reflexivity|].
    change (String c t) with (String c "" +:+ t). rewrite consumed_app.
    unfold blank. simpl. by rewrite Hc.
Qed.

Lemma blank_prefix_unique a b c s c' s' :
  blank a -> blank b -> is_space c = false -> is_space c' = false ->
  a +:+ String c s = b +:+ String c' s' -> a = b /\ String c s = String c' s'.
Proof.
  unfold blank. revert b. induction a as [|x a IH]; intros b Ha Hb Hc Hc' Heq.
  - destruct b as [|y b]; [done|]. rewrite app_empty_l, app_cons in Heq.
    injection Heq as -> _. simpl in Hb. apply andb_prop in Hb as [Hy _]. congruence.
  - destruct b as [|y b].
    + rewrite app_empty_l, app_cons in Heq. injection Heq as <- _.
      simpl in Ha. apply andb_prop in Ha as [Hx _]. congruence.
    + rewrite !app_cons in Heq. injection Heq as -> Heq.
      simpl in Ha, Hb. apply andb_prop in Ha as [_ Ha]. apply andb_prop in Hb as [_ Hb].
      destruct (IH b Ha Hb Hc Hc' Heq) as [-> ?]. done.
Qed.

Lemma same_length_prefix (a b r r' : string) :
  String.length a = String.length b -> a +:+ r = b +:+ r' -> a = b /\ r = r'.
Proof.
  revert b. induction a as [|x a IH]; intros [|y b] Hl Heq; try done.
  rewrite !app_cons in Heq. injection Heq as -> Heq. simpl in Hl.
  destruct (IH b) as [-> ->]; [lia|done|done].
Qed.

(** At one place a label is read in one way. *)
Lemma reads_label_unique ws h :
  reads_label ws h -> Forall (fun w => starts_plain w = true) ws ->
  forall h' r r', reads_label ws h' -> h +:+ r = h' +:+ r' -> h = h' /\ r = r'.
Proof.
  induction 1 as [w h Hh|w ws h gap t Hh Hgap Hne Ht IH]; intros Hws h' r r' Hr' Heq.
  - inversion Hr' as [w0 h0 Hh'|w0 ws0 h0 gap0 t0 Hh' Hgap' Hne' Ht']; subst; [|done].
    apply same_length_prefix; [|done].
    by rewrite (ci_eq_length _ _ Hh), (ci_eq_length _ _ Hh').
  - apply Forall_cons in Hws as [_ Hws].
    inversion Hr' as [w0 h0 Hh'|w0 ws0 h0 gap0 t0 Hh' Hgap' Hne' Ht']; subst; [done|].
    rewrite !app_assoc_str in Heq.
    apply same_length_prefix in Heq as [-> Heq];
      [|by rewrite (ci_eq_length _ _ Hh), (ci_eq_length _ _ Hh')].
    destruct (reads_label_head _ _ Ht Hws) as (c & u & Hu & Hc).
    destruct (reads_label_head _ _ Ht' Hws) as (c' & u' & Hu' & Hc').
    assert (gap = gap0 /\ t +:+ r = t0 +:+ r') as [-> Heq'].
    { rewrite Hu, Hu' in *. rewrite !app_cons in Heq.
      by eapply blank_prefix_unique. }
    destruct (IH Hws t0 r r' Ht' Heq') as [-> ->]. done.
Qed.

(** At a reading of the label, the pattern of the label hands over to what
    follows it, whether that succeeds or not. *)
Lemma rmatch_label_eq {R} ws h rest g (k : string -> groups -> option R) :
  reads_label ws h -> ws <> [] -> Forall (fun w => starts_plain w = true) ws ->
  rmatch IGNORECASE (label_pattern ws) (h +:+ rest) g k = k rest g.
Proof.
  intros Hr Hne Hws. destruct (k rest g) as [r|] eqn:Hk; [by apply rmatch_label|].
  destruct (rmatch IGNORECASE (label_pattern ws) _ _ _) as [r|] eqn:E; [|done].
  exfalso. apply rmatch_sound in E as (s1 & s2 & g' & Hs & D & Hk').
  apply den_label in D as [D ->]; [|done].
  destruct (reads_label_unique ws h Hr Hws s1 rest s2 D Hs) as [_ <-]. congruence.
Qed.

(** X2: a label read in one place only and followed by nothing but white
    space to the end of the text: the field is set to the empty text when
    some of that white space is no line feed, and stays unset otherwise. *)
Theorem labeled_field_blank_tail
    (text section pre label tail : string)
    (ws : list string) (pat : regex) (key : string) :
  (ws, pat, key) ∈ line_rules ->
  section_text text = Ok section ->
  section = pre +:+ label +:+ tail ->
  reads_label ws label ->
  (forall pre' h' post',
      section = pre' +:+ h' +:+ post' -> reads_label ws h' ->
      String.length pre' = String.length pre) ->
  blank tail ->
  exists well : record,
    parse_well_info text = Ok well
    /\ well !! key = Some (if line_feeds tail then None else Some "").
Proof.
  intros Hin Hsec -> Hlabel Honly Htail.
  rewrite section_text_ok in Hsec. injection Hsec as Hsec.
  exists (well_result (section_result text)). split; [apply parse_well_info_ok|].
  destruct (line_rule_well_rule _ _ _ Hin) as (Hrule & Hws & Hplain).
  rewrite (well_result_lookup _ (pat, key) Hrule), Hsec. cbn [fst]. f_equal.
  assert (forall p1 p2 m, pre +:+ label +:+ tail = p1 +:+ p2 ->
            re_match IGNORECASE pat p2 = Some m ->
            String.length p1 = String.length pre) as Hat.
  { intros p1 p2 m Heq Hm. rewrite (line_rule_assoc ws pat key) in Hm by done.
    apply re_match_sound in Hm as (s1 & Hs & D).
    apply den_cat_inv in D as (h' & s2 & g1 & -> & D & _).
    apply den_label in D as [D _]; [|done].
    apply (Honly p1 h' (s2 +:+ m_rest m)); [|done].
    rewrite Heq, Hs. by rewrite !app_assoc_str. }
  rewrite re_search_skip.
  2:{ intros p1 p2 -> Hp2.
      destruct (re_match IGNORECASE pat _) as [m|] eqn:Hm; [|done]. exfalso.
      assert (String.length p1 = String.length (p1 +:+ p2)) as Hl.
      { eapply Hat; [|exact Hm]. by rewrite !app_assoc_str. }
      rewrite length_app_str in Hl. destruct p2; [done|simpl in Hl; lia]. }
  pose proof (rmatch_blank_tail tail [] Htail) as Ht.
  assert (re_match IGNORECASE pat (label +:+ tail)
          = rmatch IGNORECASE (Cat spaces0 (Grp 1 to_eol)) tail []
              (fun s' g' => Some {| m_groups := g'; m_rest := s' |})) as Hhere.
  { rewrite (line_rule_assoc ws pat key) by done. unfold re_match.
    change (rmatch IGNORECASE (Cat (label_pattern ws) ?r) ?s ?g ?k)
      with (rmatch IGNORECASE (label_pattern ws) s g
              (fun s' g' => rmatch IGNORECASE r s' g' k)).
    by rewrite rmatch_label_eq. }
  destruct (rmatch IGNORECASE (Cat spaces0 (Grp 1 to_eol)) tail [] _) as [m|] eqn:E.
  - destruct Ht as [-> (v & Hg & Hv)].
    rewrite (re_search_here _ _ _ _ Hhere). unfold group. rewrite Hg. simpl.
    by rewrite blank_strip.
  - rewrite Ht.
    destruct (re_search IGNORECASE pat (label +:+ tail)) as [m|] eqn:Hs; [|done].
    exfalso. apply re_search_found in Hs as (p & s' & Heq & Hm).
    destruct p as [|x p]; [rewrite app_empty_l in Heq; subst s'; congruence|].
    assert (String.length (pre +:+ String x p) = String.length pre) as Hl.
    { eapply Hat; [|exact Hm]. by rewrite Heq, !app_assoc_str. }
    rewrite length_app_str in Hl. simpl in Hl. lia.
Qed.

Lemma labeled_field_blank_tail_witness :
  exists well : record,
    parse_well_info datum_at_the_end = Ok well
    /\ well !! "datum" = Some (Some "").
Proof.
  apply (labeled_field_blank_tail datum_at_the_end datum_at_the_end
           ("Latitude: 48.07" +:+ newline) "Datum:" "  " ["Datum:"] datum_pattern "datum").
  - unfold line_rules. repeat constructor.
  - reflexivity.
  - reflexivity.
  - constructor. reflexivity.
  - intros pre' h' post' Heq Hr. inversion Hr as [w h Hh|]; subst; [|done].
    pose proof (word_offsets_spec "Datum:" pre' h' post' 0 Hh) as Hin.
    rewrite <- Heq in Hin.
    change (word_offsets "Datum:" datum_at_the_end 0) with [16] in Hin.
    apply list_elem_of_singleton in Hin. exact Hin.
  - reflexivity.
Defined.













(** A property that every iteration from line [i] on keeps holds at the end
    of a scan that starts at line [i]. *)
Lemma scan_result_invariant_from (P : record -> Prop) lines :
  (forall j d, P d -> P (details_block_result lines j d)) ->
  forall todo i d,
    drop i lines = todo ->
    (forall j line d', i <= j -> lines !! j = Some line -> P d' ->
                       P (markers_result lines j line d')) ->
    P d -> P (scan_result lines i todo d).
Proof.
  intros Hd. induction todo as [|line todo IH]; intros i d Hdrop Hm HP; simpl; [done|].
  assert (lines !! i = Some line) as Hi.
  { assert (drop i lines !! 0 = Some line) as H0 by (by rewrite Hdrop).
    by rewrite lookup_drop, Nat.add_0_r in H0. }
  case_match; [by apply Hd, (Hm i)|]. apply IH; [| |by apply (Hm i)].
  - rewrite (drop_S _ _ _ Hi) in Hdrop. by injection Hdrop.
  - intros j line' d' Hj. apply Hm. lia.
Qed.

(** The scan from the line after [pre]: what that line's blocks establish
    and the later iterations keep holds at the end. *)
Lemma scan_result_from_line (P : record -> Prop) lines pre line post (d : record) :
  lines = pre ++ line :: post -> no_details pre ->
  (forall d', P (markers_result lines (length pre) line d')) ->
  (forall j line' d', post !! j = Some line' -> P d' ->
                      P (markers_result lines (length pre + 1 + j) line' d')) ->
  (forall j d', P d' -> P (details_block_result lines j d')) ->
  P (scan_result lines 0 lines d).
Proof.
  intros Hlines Hpre Hhere Hm Hd. rewrite Hlines at 2.
  rewrite scan_result_skip by done. simpl.
  case_match; [by apply Hd, Hhere|].
  apply scan_result_invariant_from; auto.
  - rewrite Hlines. rewrite drop_app_ge by lia.
    by replace (S (length pre) - length pre) with 1 by lia.
  - intros j line' d' Hj Hl HP.
    replace j with (length pre + 1 + (j - S (length pre))) by lia.
    apply Hm; [|done]. rewrite Hlines in Hl.
    rewrite lookup_app_r in Hl by lia.
    replace (j - length pre) with (S (j - S (length pre))) in Hl by lia.
    done.
Qed.

Lemma treatment_fields_agree m (d d' : record) :
  fields_agree treatment_keys (treatment_fields m d) (treatment_fields m d').
Proof.
  intros k Hk. unfold treatment_keys in Hk. unfold treatment_fields.
  repeat (apply elem_of_cons in Hk as [->|Hk]; [by lookup_inserts|]).
  by apply elem_of_nil in Hk.
Qed.

Lemma date_fields_agree m (d d' : record) :
  fields_agree date_keys (date_fields m d) (date_fields m d').
Proof.
  intros k Hk. unfold date_keys in Hk. unfold date_fields.
  repeat (apply elem_of_cons in Hk as [->|Hk]; [by lookup_inserts|]).
  by apply elem_of_nil in Hk.
Qed.

(** X6: the last marker whose next line matches decides. When the scan
    reaches a "Type Treatment" line followed by a line of the shape, and no
    later "Type Treatment" line is followed by one, the four treatment
    fields are read from that line, whatever earlier episodes had set; the
    same holds of "Date Stimulated" and the seven fields of its line. *)
Theorem last_matching_line_wins
    (text : string) (pre : list string) (line : string) (post : list string)
    (l : string) (m : Match) :
  splitlines text = pre ++ line :: post -> no_details pre ->
  next_line (splitlines text) (length pre) = Some l ->
  exists stim : record,
    parse_stimulation_data text = Ok stim
    /\ (contains "Type Treatment" (strip line) = true ->
        re_match NOFLAG treatment_re l = Some m ->
        no_later_match "Type Treatment" treatment_re (splitlines text) post
                       (length pre + 1) ->
        fields_agree treatment_keys stim (treatment_fields m (all_unset stim_keys)))
    /\ (contains "Date Stimulated" (strip line) = true ->
        re_match NOFLAG date_re l = Some m ->
        no_later_match "Date Stimulated" date_re (splitlines text) post
                       (length pre + 1) ->
        fields_agree date_keys stim (date_fields m (all_unset stim_keys))).
Proof.
  intros Hlines Hpre Hl.
  eexists. split; [apply parse_stimulation_data_ok|]. split.
  - intros Hc Hm Hlast.
    apply (scan_result_from_line
             (fun d => fields_agree treatment_keys d
                         (treatment_fields m (all_unset stim_keys)))
             _ pre line post); try done.
    + intros d'. unfold markers_result. rewrite Hc. unfold treatment_block_result.
      rewrite Hl, Hm. apply treatment_fields_agree.
    + intros j line' d' Hj HP. unfold markers_result.
      set (d1 := if contains "Date Stimulated" (strip line')
                 then date_block_result (splitlines text) (length pre + 1 + j) d'
                 else d').
      assert (fields_agree treatment_keys d1 (treatment_fields m (all_unset stim_keys)))
        as Hd1.
      { eapply fields_agree_trans; [|exact HP]. intros k Hk. unfold d1.
        case_match; [|done]. apply date_block_result_other. by apply disjoint_keys. }
      destruct (contains "Type Treatment" (strip line')) eqn:Hc'; [|done].
      unfold treatment_block_result.
      destruct (next_line (splitlines text) (length pre + 1 + j)) as [l'|] eqn:Hl'; [|done].
      by rewrite (Hlast j line' l' Hj Hc' Hl').
    + intros j d' HP. eapply fields_agree_trans; [|exact HP]. intros k Hk.
      apply details_block_result_other. by apply disjoint_keys.
  - intros Hc Hm Hlast.
    apply (scan_result_from_line
             (fun d => fields_agree date_keys d (date_fields m (all_unset stim_keys)))
             _ pre line post); try done.
    + intros d'. unfold markers_result. rewrite Hc.
      set (d1 := date_block_result (splitlines text) (length pre) d').
      assert (fields_agree date_keys d1 (date_fields m (all_unset stim_keys))) as Hd1.
      { unfold d1, date_block_result. rewrite Hl, Hm. apply date_fields_agree. }
      case_match; [|done].
      eapply fields_agree_trans; [|exact Hd1]. intros k Hk.
      apply treatment_block_result_other. by apply disjoint_date_keys.
    + intros j line' d' Hj HP. unfold markers_result.
      set (d1 := if contains "Date Stimulated" (strip line')
                 then date_block_result (splitlines text) (length pre + 1 + j) d'
                 else d').
      assert (fields_agree date_keys d1 (date_fields m (all_unset stim_keys))) as Hd1.
      { unfold d1. destruct (contains "Date Stimulated" (strip line')) eqn:Hc'; [|done].
        unfold date_block_result.
        destruct (next_line (splitlines text) (length pre + 1 + j)) as [l'|] eqn:Hl'; [|done].
        by rewrite (Hlast j line' l' Hj Hc' Hl'). }
      case_match; [|done].
      eapply fields_agree_trans; [|exact Hd1]. intros k Hk.
      apply treatment_block_result_other. by apply disjoint_date_keys.
    + intros j d' HP. eapply fields_agree_trans; [|exact HP]. intros k Hk.
      apply details_block_result_other. by apply disjoint_date_keys.
Qed.

Lemma last_matching_line_wins_witness :
  exists stim : record,
    parse_stimulation_data two_episodes = Ok stim
    /\ fields_agree treatment_keys stim
         (treatment_fields second_treatment_match (all_unset stim_keys)).
Proof.
  destruct (last_matching_line_wins two_episodes
              (take 6 (splitlines two_episodes))
              "Type Treatment Lbs Proppant Pressure Rate"
              ["Acid Frac 1000 8000 25.5"] "Acid Frac 1000 8000 25.5"
              second_treatment_match)
    as (stim & Hs & Ht & _).
  - reflexivity.
  - unfold no_details. repeat constructor.
  - reflexivity.
  - exists stim. split; [exact Hs|]. apply Ht.
    + reflexivity.
    + reflexivity.
    + intros j line' l' Hj Hc. destruct j as [|j]; [|done].
      injection Hj as <-. discriminate Hc.
Defined.

(** A line followed by a line end is the first line of the text, when what
    follows does not start with the second half of a CR LF. *)
Lemma splitlines_line l sep rest :
  no_linebreak l -> sep ∈ line_ends ->
  (sep = String CR "" -> forall r, rest <> String LF r) ->
  splitlines (l +:+ sep +:+ rest) = l :: splitlines rest.
Proof.
  intros Hl Hsep Hrest. unfold no_linebreak in Hl.
  induction l as [|c l IH].
  - rewrite app_empty_l. unfold line_ends in Hsep.
    apply elem_of_cons in Hsep as [->|Hsep]; [|apply elem_of_cons in Hsep as [->|Hsep]].
    + rewrite app_cons, app_empty_l. cbn [splitlines].
      assert (is_linebreak LF = true) as -> by reflexivity.
      assert (Ascii.eqb LF CR = false) as -> by reflexivity.
      cbn [andb]. by destruct rest.
    + rewrite !app_cons, app_empty_l. cbn [splitlines].
      assert (is_linebreak CR = true) as -> by reflexivity.
      by rewrite !Ascii.eqb_refl.
    + apply list_elem_of_singleton in Hsep as ->.
      rewrite app_cons, app_empty_l. cbn [splitlines].
      assert (is_linebreak CR = true) as -> by reflexivity.
      destruct rest as [|x rest]; [done|]. rewrite Ascii.eqb_refl. cbn [andb].
      destruct (Ascii.eqb x LF) eqn:E; [|done].
      apply Ascii.eqb_eq in E as ->. by destruct (Hrest eq_refl rest).
  - simpl in Hl. apply andb_prop in Hl as [Hc Hl]. apply negb_true_iff in Hc.
    rewrite app_cons. cbn [splitlines]. rewrite Hc, (IH Hl). done.
Qed.

Lemma join_cons sep l l' ls : join sep (l :: l' :: ls) = l +:+ sep +:+ join sep (l' :: ls).
Proof. reflexivity. Qed.

Lemma join_head_not_LF l ls r :
  no_linebreak l -> join (String CR "") (l :: ls) <> String LF r.
Proof.
  intros Hl. destruct ls as [|l' ls].
  - simpl. intros ->. done.
  - rewrite join_cons. destruct l as [|c l].
    + rewrite app_empty_l, app_cons. done.
    + rewrite app_cons. intros [= -> _]. done.
Qed.

(** The lines of a text are the same under the three line ends. *)
Lemma splitlines_join ls sep :
  Forall no_linebreak ls -> sep ∈ line_ends ->
  splitlines (join sep ls) = splitlines (join newline ls).
Proof.
  intros Hls Hsep. induction Hls as [|l ls Hl Hls IH]; [done|].
  destruct ls as [|l' ls]; [done|].
  rewrite !join_cons.
  rewrite (splitlines_line l sep), (splitlines_line l newline), IH; try done.
  - unfold line_ends, newline. repeat constructor.
  - intros ->. intros r. apply join_head_not_LF. by apply Forall_cons in Hls as [? _].
Qed.

(** X7: the stimulation record does not depend on the line ends: the same
    lines joined by LF, by CR LF or by CR alone give the same record. *)
Theorem line_ends_do_not_matter (ls : list string) (sep : string) :
  Forall no_linebreak ls -> sep ∈ line_ends ->
  parse_stimulation_data (join sep ls) = parse_stimulation_data (join newline ls).
Proof.
  intros Hls Hsep. unfold parse_stimulation_data. by rewrite splitlines_join.
Qed.

Lemma line_ends_do_not_matter_witness :
  parse_stimulation_data
    (join (String CR (String LF ""))
       ["Type Treatment"; "Sand Frac 4230380 9122 39.0"; ""])
  = parse_stimulation_data treatment_pair.
Proof.
  rewrite (line_ends_do_not_matter ["Type Treatment"; "Sand Frac 4230380 9122 39.0"; ""]
             (String CR (String LF ""))).
  - reflexivity.
  - repeat constructor.
  - unfold line_ends. repeat constructor.
Defined.

Lemma values_of_agree keys (d d' : record) :
  fields_agree keys d d' -> values_of keys d = values_of keys d'.
Proof.
  induction keys as [|k keys IH]; intros H; [done|].
  cbn [values_of]. unfold getitem. rewrite (H k) by (by left).
  rewrite IH; [done|]. intros k' Hk'. apply H. by right.
Qed.

(** X8: the treatment type is parsed but never forwarded: two documents
    whose records differ in type_treatment only send the same calls. *)
Theorem type_treatment_is_not_forwarded
    (text text' : string) (stim stim' : record) (well_info_id : nat) :
  parse_well_info text = parse_well_info text' ->
  parse_stimulation_data text = Ok stim ->
  parse_stimulation_data text' = Ok stim' ->
  fields_agree stim_columns stim stim' ->
  ("type_treatment" ∉ stim_columns)
  /\ (forall k, k ∈ stim_keys -> k ≠ "type_treatment" -> k ∈ stim_columns)
  /\ process_document text well_info_id = process_document text' well_info_id.
Proof.
  intros Hw Hs Hs' Hagree. split_and!.
  - unfold stim_columns. repeat (apply not_elem_of_cons; split; [done|]).
    apply not_elem_of_nil.
  - intros k Hk Hne. unfold stim_keys in Hk. unfold stim_columns.
    repeat (apply elem_of_cons in Hk as [->|Hk];
            [first [by destruct Hne|by repeat constructor]|]).
    by apply elem_of_nil in Hk.
  - unfold process_document. rewrite Hw, Hs, Hs'.
    destruct (parse_well_info text') as [well|e]; [|done]. rewrite !res_bind_ok.
    destruct (values_of well_keys well) as [wv|e]; [|reflexivity]. rewrite !res_bind_ok.
    unfold getitem.
    rewrite (Hagree "date_stimulated") by (by repeat constructor).
    rewrite (Hagree "stimulated_formation") by (by repeat constructor).
    by rewrite (values_of_agree _ _ _ Hagree).
Qed.

Lemma type_treatment_is_not_forwarded_witness :
  process_document sand_frac_text 7 = process_document acid_frac_text 7.
Proof.
  destruct (type_treatment_is_not_forwarded sand_frac_text acid_frac_text
              (scan_result (splitlines sand_frac_text) 0 (splitlines sand_frac_text)
                 (all_unset stim_keys))
              (scan_result (splitlines acid_frac_text) 0 (splitlines acid_frac_text)
                 (all_unset stim_keys)) 7) as (_ & _ & H).
  - rewrite !parse_well_info_ok.
    by rewrite !well_result_unset by (by apply section_result_colon).
  - apply parse_stimulation_data_ok.
  - apply parse_stimulation_data_ok.
  - intros k Hk. unfold stim_columns in Hk.
    repeat (apply elem_of_cons in Hk as [->|Hk]; [vm_compute; reflexivity|]).
    exfalso. by apply elem_of_nil in Hk.
  - exact H.
Defined.

(* ===================================================================== *)
(** * Text acquisition and the loop of main *)
(* ===================================================================== *)

Lemma direct_pages_spec pages acc :
  direct_pages pages acc = acc +:+ lines_text (read_texts pages).
Proof.
  revert acc. induction pages as [|p pages IH]; intros acc; simpl.
  - by rewrite app_empty_r.
  - destruct p as [[[|c t]|]|f]; simpl; rewrite ?IH, ?app_empty_r; try done.
    by rewrite !app_assoc_str.
Qed.

Lemma strip_empty_blank s : strip s = "" <-> blank s.
Proof.
  split.
  - intros H. destruct (strip_decompose s) as (l & r & Hs & Hl & Hr).
    rewrite H, app_empty_l in Hs. unfold blank in *. rewrite Hs, all_chars_app.
    by rewrite Hl, Hr.
  - apply blank_strip.
Qed.

Lemma blank_lines_text texts :
  all_chars is_space (lines_text texts) = negb (existsb visible texts).
Proof.
  induction texts as [|t texts IH]; [done|].
  assert (all_chars is_space (t +:+ newline +:+ lines_text texts)
          = negb (visible t || existsb visible texts)) as H.
  { rewrite !all_chars_app, IH. unfold visible. simpl.
    destruct (all_chars is_space t); by destruct (existsb _ _). }
  destruct t as [|c t]; [|exact H]. simpl. exact IH.
Qed.

(** X9: the text of the file itself is returned exactly when a page read
    before the first exception holds a visible character: then the result
    is the texts of those pages, the empty ones left out, each followed by
    a newline, and no exception of pdfplumber gets out. Otherwise the
    result, or the exception, is that of the OCR pass. *)
Theorem ocr_runs_iff_nothing_visible (w : world) (pdf_path : string) :
  (existsb visible (direct_texts w pdf_path) = true ->
   extract_text_from_pdf w pdf_path = Returns (lines_text (direct_texts w pdf_path)))
  /\ (existsb visible (direct_texts w pdf_path) = false ->
      extract_text_from_pdf w pdf_path = ocr_pdf_to_text w pdf_path).
Proof.
  unfold extract_text_from_pdf, direct_texts.
  set (text_content := match pdfplumber_open w pdf_path with
                       | Returns pages => direct_pages pages ""
                       | Raises _ => ""
                       end).
  set (texts := match pdfplumber_open w pdf_path with
                | Returns pages => read_texts pages
                | Raises _ => []
                end).
  assert (text_content = lines_text texts) as ->.
  { unfold text_content, texts. destruct (pdfplumber_open w pdf_path); [|done].
    by rewrite direct_pages_spec, app_empty_l. }
  pose proof (blank_lines_text texts) as Hb.
  destruct (strip (lines_text texts)) as [|c t] eqn:E.
  - apply strip_empty_blank in E. unfold blank in E. rewrite E in Hb.
    split; [|done]. intros H. by rewrite H in Hb.
  - split; [done|]. intros H. rewrite H in Hb. simpl in Hb.
    apply strip_empty_blank in Hb. congruence.
Qed.

Lemma ocr_runs_iff_nothing_visible_witness :
  extract_text_from_pdf scanned_then_text "pdf_folder/W28654.pdf"
  = Returns ("  " +:+ newline +:+ "Well Name: Chalmers" +:+ newline).
Proof.
  apply (proj1 (ocr_runs_iff_nothing_visible scanned_then_text "pdf_folder/W28654.pdf")).
  reflexivity.
Defined.

Lemma ocr_pages_acc pages acc :
  ocr_pages pages acc
  = match ocr_pages pages "" with
    | Returns t => Returns (acc +:+ t)
    | Raises f => Raises f
    end.
Proof.
  revert acc. induction pages as [|p pages IH]; intros acc; simpl.
  - by rewrite app_empty_r.
  - destruct p as [[t|]|f]; try done.
    rewrite (IH (acc +:+ (t +:+ newline))), (IH ("" +:+ (t +:+ newline))).
    destruct (ocr_pages pages ""); [|done]. by rewrite !app_empty_l, !app_assoc_str.
Qed.

Lemma ocr_pages_texts texts : ocr_pages (text_page <$> texts) "" = Returns (all_lines_text texts).
Proof.
  induction texts as [|t texts IH]; [done|]. cbn [fmap list_fmap text_page ocr_pages].
  change (list_fmap _ _ text_page texts) with (text_page <$> texts).
  rewrite ocr_pages_acc, IH. by rewrite !app_empty_l, !app_assoc_str.
Qed.

Lemma ocr_pages_returns pages t :
  ocr_pages pages "" = Returns t ->
  exists texts, pages = text_page <$> texts /\ t = all_lines_text texts.
Proof.
  revert t. induction pages as [|p pages IH]; intros t; simpl.
  - intros [= <-]. by exists [].
  - destruct p as [[x|]|f]; try done.
    rewrite ocr_pages_acc. destruct (ocr_pages pages "") as [t'|] eqn:E; [|done].
    intros [= <-]. destruct (IH t' eq_refl) as (texts & -> & ->).
    exists (x :: texts). split; [done|]. simpl. by rewrite !app_assoc_str.
Qed.

Lemma ocr_pages_no_text before after acc :
  ocr_pages ((text_page <$> before) ++ Returns None :: after) acc = Raises (Python TypeError).
Proof.
  revert acc. induction before as [|t before IH]; intros acc; [done|]. simpl. apply IH.
Qed.

(** X10: the OCR pass returns only when ocrmypdf succeeds and every page of
    its output gives a text; the result is then every text, the empty ones
    too, each followed by a newline. A page without text, which the direct
    pass skips, is a TypeError here. *)
Theorem ocr_needs_text_on_every_page (w : world) (pdf_path : string) :
  (forall t,
      ocr_pdf_to_text w pdf_path = Returns t
      <-> exists texts, ocrmypdf w pdf_path = Some (Returns (text_page <$> texts))
                        /\ t = all_lines_text texts)
  /\ (forall before after,
        ocrmypdf w pdf_path
        = Some (Returns ((text_page <$> before) ++ Returns None :: after)) ->
        ocr_pdf_to_text w pdf_path = Raises (Python TypeError)
        /\ direct_pages ((text_page <$> before) ++ Returns None :: after) ""
           = direct_pages ((text_page <$> before) ++ after) "")
  /\ (ocrmypdf w pdf_path = None ->
      ocr_pdf_to_text w pdf_path = Raises (Library "CalledProcessError")).
Proof.
  unfold ocr_pdf_to_text. split_and!.
  - intros t. split.
    + destruct (ocrmypdf w pdf_path) as [[pages|f]|]; try done.
      intros (texts & -> & ->)%ocr_pages_returns. eauto.
    + intros (texts & -> & ->). apply ocr_pages_texts.
  - intros before after ->. split; [apply ocr_pages_no_text|].
    rewrite !direct_pages_spec. do 2 f_equal.
    induction before as [|t before IH]; [done|]. simpl. by f_equal.
  - by intros ->.
Qed.

Lemma ocr_needs_text_on_every_page_witness :
  ocr_pdf_to_text ocr_with_empty_page "pdf_folder/W28654.pdf" = Raises (Python TypeError).
Proof.
  apply (proj1 (proj2 (ocr_needs_text_on_every_page ocr_with_empty_page
                         "pdf_folder/W28654.pdf"))
           ["Well Name: Chalmers"] [] eq_refl).
Defined.

(** One document sends its well row, and after it at most one stimulation
    row with the id given. *)
Lemma process_document_calls text well_info_id :
  exists wv,
    process_document text well_info_id = Ok [insert_well_info wv]
    \/ exists sv, process_document text well_info_id
                  = Ok [insert_well_info wv; insert_stimulation_data well_info_id sv].
Proof.
  set (well := well_result (section_result text)).
  set (stim := scan_result (splitlines text) 0 (splitlines text) (all_unset stim_keys)).
  assert (stim_shape stim) as Hs by apply scan_result_shape, dom_all_unset.
  pose proof (well_result_shape (section_result text)) as Hw. fold well in Hw.
  assert (values_of well_keys well = Ok ((fun k => default None (well !! k)) <$> well_keys)) as Hwv.
  { apply values_of_ok. intros k Hk. by eapply shape_lookup. }
  assert (values_of stim_columns stim
          = Ok ((fun k => default None (stim !! k)) <$> stim_columns)) as Hsv.
  { apply values_of_ok. intros k Hk. eapply shape_lookup; [exact Hs|].
    unfold stim_columns in Hk.
    repeat (apply elem_of_cons in Hk as [->|Hk]; [by repeat constructor|]).
    by apply elem_of_nil in Hk. }
  destruct (getitem_ok stim_keys stim "date_stimulated" Hs) as (date & Hd & Hgd);
    [by repeat constructor|].
  destruct (getitem_ok stim_keys stim "stimulated_formation" Hs) as (name & Hf & Hgf);
    [by repeat constructor|].
  eexists. unfold process_document.
  rewrite parse_well_info_ok, res_bind_ok. fold well.
  rewrite Hwv, res_bind_ok. rewrite parse_stimulation_data_ok, res_bind_ok.
  fold stim. rewrite Hgd, res_bind_ok. destruct (truthy date).
  - right. rewrite res_bind_ok, Hsv, res_bind_ok. by eexists.
  - rewrite Hgf, !res_bind_ok. destruct (truthy name); [|by left].
    right. rewrite Hsv, res_bind_ok. by eexists.
Qed.

Lemma endswith_spec p s : endswith p s = true <-> exists stem, s = stem +:+ p.
Proof.
  induction s as [|c s IH]; simpl.
  - rewrite orb_false_r. split.
    + intros ->%String.eqb_eq. by exists "".
    + intros (stem & H). symmetry in H. apply app_is_empty in H as [_ ->]. done.
  - rewrite orb_true_iff, IH. split.
    + intros [->%String.eqb_eq|(stem & ->)]; [by exists ""|by exists (String c stem)].
    + intros ([|x stem] & H).
      * left. rewrite app_empty_l in H. subst p. apply String.eqb_refl.
      * right. rewrite app_cons in H. injection H as _ ->. by exists stem.
Qed.

Lemma lower_split n a b :
  lower n = a +:+ b -> exists s e, n = s +:+ e /\ lower s = a /\ lower e = b.
Proof.
  revert n. induction a as [|x a IH]; intros n H.
  - by exists "", n.
  - destruct n as [|c n]; [done|]. rewrite app_cons in H. simpl in H.
    injection H as Hx H. destruct (IH n H) as (s & e & -> & <- & <-).
    exists (String c s), e. simpl. by rewrite Hx.
Qed.

Lemma is_pdf_name_spec name :
  is_pdf_name name = true <-> exists stem ext, name = stem +:+ ext /\ ci_eq ext ".pdf".
Proof.
  unfold is_pdf_name, ci_eq. rewrite endswith_spec. split.
  - intros (a & (s & e & -> & _ & He)%lower_split). by exists s, e.
  - intros (s & e & -> & He). exists (lower s). by rewrite lower_app, He.
Qed.

(** X11: main processes the directory entries whose name ends in ".pdf", in
    any case of the letters, and no other: the entries left out change
    neither the calls made nor the outcome. *)
Theorem only_pdf_names_are_processed (w : world) (filenames : list string)
    (log : list call) :
  (forall name,
      is_pdf_name name = true
      <-> exists stem ext, name = stem +:+ ext /\ ci_eq ext ".pdf")
  /\ main_loop w filenames log = main_loop w (List.filter is_pdf_name filenames) log.
Proof.
  split; [apply is_pdf_name_spec|].
  revert log. induction filenames as [|name names IH]; intros log; [done|].
  simpl. destruct (is_pdf_name name) eqn:E; [|apply IH].
  simpl. rewrite E. destruct (extract_text_from_pdf _ _); [|done].
  destruct (process_document _ _); [|done]. apply IH.
Qed.


Lemma only_pdf_names_are_processed_witness :
  main_loop three_entries ["notes.txt"; "W28654.PDF"; "W20197.pdf.bak"] []
  = main_loop three_entries ["W28654.PDF"] [].
Proof.
  apply (proj2 (only_pdf_names_are_processed three_entries
                  ["notes.txt"; "W28654.PDF"; "W20197.pdf.bak"] [])).
Defined.


Lemma well_rows_app log log' : well_rows (log ++ log') = well_rows log + well_rows log'.
Proof.
  induction log as [|[wv|i sv] log IH]; simpl; [done|by rewrite IH|done].
Qed.

Lemma main_loop_linked w filenames : forall log,
  linked w log -> linked w (main_loop w filenames log).2.
Proof.
  induction filenames as [|name names IH]; intros log Hl; [done|].
  cbn [main_loop]. destruct (is_pdf_name name); [|by apply IH].
  destruct (extract_text_from_pdf _ _) as [text|f]; [|done].
  destruct (process_document_calls text (lastrowid w log)) as (wv & [Hp|(sv & Hp)]);
    rewrite Hp; apply IH; by constructor.
Qed.

Lemma main_loop_well_rows w filenames : forall log log',
  main_loop w filenames log = (Returns tt, log') ->
  well_rows log' = well_rows log + length (List.filter is_pdf_name filenames).
Proof.
  induction filenames as [|name names IH]; intros log log'.
  - simpl. intros [= <-]. lia.
  - cbn [main_loop List.filter]. destruct (is_pdf_name name); [|apply IH].
    destruct (extract_text_from_pdf _ _) as [text|f]; [|done].
    destruct (process_document_calls text (lastrowid w log)) as (wv & [Hp|(sv & Hp)]);
      rewrite Hp; intros H%IH; rewrite H, well_rows_app; simpl; lia.
Qed.

(** X13: whatever the collaborators do, in the calls main makes every
    stimulation row comes right after the well row of its document and
    carries the row id that well row was given; when main returns, there is
    one well row for each PDF entry of the directory. *)
Theorem stimulation_rows_follow_their_well (w : world) :
  linked w (main w).2
  /\ (forall log, main w = (Returns tt, log) ->
        exists filenames,
          listdir w = Returns filenames
          /\ well_rows log = length (List.filter is_pdf_name filenames)).
Proof.
  unfold main. split.
  - destruct (create_db_and_tables w); [|constructor].
    destruct (listdir w); [|constructor]. apply main_loop_linked. constructor.
  - intros log. destruct (create_db_and_tables w); [|done].
    destruct (listdir w) as [filenames|]; [|done].
    intros H%main_loop_well_rows. by exists filenames.
Qed.

Lemma stimulation_rows_follow_their_well_witness :
  exists log, main three_entries = (Returns tt, log) /\ well_rows log = 1.
Proof.
  destruct (stimulation_rows_follow_their_well three_entries) as [_ H].
  eexists. split; [vm_compute; reflexivity|].
  edestruct H as (names & Hn & ->); [vm_compute; reflexivity|].
  injection Hn as <-. reflexivity.
Defined.

Lemma api_pattern_assoc s :
  re_match IGNORECASE api_pattern s
  = re_match IGNORECASE
      (Cat (label_pattern api_label)
           (Cat spaces0 (Grp 1 (Plus true (Cls digit_or_hyphen))))) s.
Proof. reflexivity. Qed.

Lemma digit_or_hyphen_not_space c : digit_or_hyphen c = true -> is_space c = false.
Proof. intros [H _]%digit_or_hyphen_plain. by apply negb_true_iff. Qed.

(** After the label: white space, then the longest run of digits and
    hyphens. *)
Lemma rmatch_api_token gap token rest :
  blank gap -> token <> "" -> all_chars digit_or_hyphen token = true ->
  (forall c r, rest = String c r -> digit_or_hyphen c = false) ->
  rmatch IGNORECASE (Cat spaces0 (Grp 1 (Plus true (Cls digit_or_hyphen))))
    (gap +:+ token +:+ rest) []
    (fun s' g' => Some {| m_groups := g'; m_rest := s' |})
  = Some {| m_groups := [(1, token)]; m_rest := rest |}.
Proof.
  intros Hgap Hne Htok Hrest. unfold spaces0, Plus. cbn [rmatch].
  destruct token as [|c v]; [done|].
  simpl in Htok. apply andb_prop in Htok as [Hc Hv].
  apply star_greedy_run; [done| |].
  { rewrite app_cons. intros c' rest' [= <- _]. by apply digit_or_hyphen_not_space. }
  rewrite app_cons.
  assert (accepts IGNORECASE (Cls digit_or_hyphen) c = true) as -> by done.
  apply star_greedy_run; [done| |].
  { intros c' rest' ->. by apply (Hrest c' rest'). }
  by rewrite <- app_cons, consumed_app.
Qed.

(** X15: where "API #:" is read for the first time (up to case, with or
    without white space before the "#"), followed by white space or nothing
    and then by digits and hyphens, the API number is the longest run of
    digits and hyphens there; what follows on the line is left out. *)
Theorem api_number_is_token_after_label
    (text section pre label gap token rest : string) :
  section_text text = Ok section ->
  section = pre +:+ label +:+ gap +:+ token +:+ rest ->
  reads_label api_label label ->
  (forall pre' h' post',
      section = pre' +:+ h' +:+ post' -> reads_label api_label h' ->
      String.length pre <= String.length pre') ->
  blank gap -> token <> "" -> all_chars digit_or_hyphen token = true ->
  (forall c r, rest = String c r -> digit_or_hyphen c = false) ->
  exists well : record,
    parse_well_info text = Ok well
    /\ well !! "api_number" = Some (Some token).
Proof.
  intros Hsec -> Hlabel Hfirst Hgap Hne Htok Hrest.
  rewrite section_text_ok in Hsec. injection Hsec as Hsec.
  exists (well_result (section_result text)). split; [apply parse_well_info_ok|].
  rewrite (well_result_lookup _ (api_pattern, "api_number"))
    by (unfold well_rules; repeat constructor).
  rewrite Hsec. cbn [fst]. rewrite re_search_skip.
  - rewrite (re_search_here _ _ _ {| m_groups := [(1, token)]; m_rest := rest |}).
    + unfold group. simpl. do 2 f_equal. apply strip_no_space.
      eapply all_chars_impl; [|exact Htok]. intros c Hc. apply digit_or_hyphen_plain, Hc.
    + rewrite api_pattern_assoc. unfold re_match. cbn [rmatch].
      apply rmatch_label; [done|by repeat constructor|].
      by apply rmatch_api_token.
  - intros p1 p2 -> Hp2.
    destruct (re_match IGNORECASE api_pattern _) as [m|] eqn:Hm; [|done]. exfalso.
    rewrite api_pattern_assoc in Hm.
    apply re_match_sound in Hm as (s1 & Hs & D).
    apply den_cat_inv in D as (h' & s2 & g1 & -> & D & _).
    apply den_label in D as [D _]; [|done].
    specialize (Hfirst p1 h' (s2 +:+ m_rest m)).
    rewrite length_app_str in Hfirst.
    assert (String.length p2 <> 0) by (by destruct p2).
    assert (String.length p1 + String.length p2 <= String.length p1); [|lia].
    apply Hfirst; [|done]. rewrite !app_assoc_str in *. by rewrite Hs.
Qed.

Lemma api_number_is_token_after_label_witness :
  exists well : record,
    parse_well_info api_line = Ok well
    /\ well !! "api_number" = Some (Some "33-053-06057").
Proof.
  apply (api_number_is_token_after_label api_line api_line
           "Operator: Oasis  " "API#:" "  " "33-053-06057" " (new)").
  - reflexivity.
  - reflexivity.
  - apply (reads_more "API" ["#:"] "API" "" "#:"); [reflexivity|reflexivity|done|].
    constructor. reflexivity.
  - intros pre' h' post' Heq Hr.
    inversion Hr as [|w ws h g t Hh Hg Hne Ht]; subst.
    rewrite app_assoc_str in Heq.
    pose proof (word_offsets_spec "API" pre' h ((g +:+ t) +:+ post') 0 Hh) as Hin.
    rewrite <- Heq in Hin.
    change (word_offsets "API" api_line 0) with [17] in Hin.
    apply list_elem_of_singleton in Hin. simpl in Hin. rewrite Hin. simpl. lia.
  - reflexivity.
  - done.
  - reflexivity.
  - by intros c r [= <- _].
Defined.

Lemma values_of_raises (keys : list string) (d : record) e :
  values_of keys d = Raise e -> e = KeyError /\ exists k, k ∈ keys /\ d !! k = None.
Proof.
  induction keys as [|k keys IH]; [done|]. cbn [values_of]. unfold getitem.
  destruct (d !! k) as [v|] eqn:E.
  - rewrite res_bind_ok. destruct (values_of keys d) as [vs|e'] eqn:E'; [done|].
    intros [= <-]. destruct (IH eq_refl) as (-> & k' & Hk' & Hn).
    split; [done|]. exists k'. split; [by right|done].
  - intros [= <-]. split; [done|]. exists k. split; [by left|done].
Qed.

(** X14: the tuple of values an insert function binds holds, in the order of
    the columns, what the record has under each key; a record that lacks
    one of the keys makes the function raise KeyError, and nothing else is
    ever raised there. Keys beyond the columns are not looked at. *)
Theorem insert_values_need_every_key (keys : list string) (d : record) :
  (forall vs, values_of keys d = Ok vs <-> Forall2 (fun k v => d !! k = Some v) keys vs)
  /\ (forall e, values_of keys d = Raise e
                <-> e = KeyError /\ exists k, k ∈ keys /\ d !! k = None)
  /\ (forall k v, k ∉ keys -> values_of keys (<[k := v]> d) = values_of keys d).
Proof.
  split_and!.
  - induction keys as [|k keys IH]; intros vs.
    + simpl. split; [intros [= <-]; constructor|by intros ->%Forall2_nil_inv_l].
    + cbn [values_of]. unfold getitem. split.
      * destruct (d !! k) as [v|] eqn:E; [|done]. rewrite res_bind_ok.
        destruct (values_of keys d) as [vs'|] eqn:E'; [|done].
        intros [= <-]. constructor; [done|]. by apply IH.
      * intros (v & vs' & Hv & Hvs & ->)%Forall2_cons_inv_l.
        rewrite Hv, res_bind_ok. apply IH in Hvs. by rewrite Hvs.
  - intros e. split; [apply values_of_raises|].
    intros (-> & k & Hk & Hn). destruct (values_of keys d) as [vs|e] eqn:E.
    + exfalso. revert vs E. induction keys as [|k' keys IH]; intros vs E.
      * by apply elem_of_nil in Hk.
      * cbn [values_of] in E. unfold getitem in E.
        destruct (d !! k') as [v|] eqn:E'; [|done]. rewrite res_bind_ok in E.
        destruct (values_of keys d) as [vs'|] eqn:E''; [|done].
        apply elem_of_cons in Hk as [->|Hk]; [congruence|]. by eapply IH.
    + by apply values_of_raises in E as [-> _].
  - intros k v Hk. apply values_of_agree. intros k' Hk'.
    apply lookup_insert_ne. by intros ->.
Qed.

Lemma insert_values_need_every_key_witness :
  values_of well_keys well_without_datum = Raise KeyError.
Proof.
  apply (proj1 (proj2 (insert_values_need_every_key well_keys well_without_datum))).
  split; [done|]. exists "datum". split; [by repeat constructor|reflexivity].
Defined.

Lemma well_fields_trimmed_single_line_witness :
  trimmed "Oasis Petroleum" /\ one_line "Oasis Petroleum".
Proof.
  destruct (well_fields_trimmed_single_line operator_line) as (well & Hw & H).
  apply (H "operator"). rewrite parse_well_info_ok in Hw.
  apply res_ok_inj in Hw as <-. vm_compute. reflexivity.
Defined.

